(** * libcpp-pg-pool: a shallow embedding of [lklibs::PgPool]

    The class under study (libcpp-pg-pool.hpp) is a fixed-size pool of
    [pqxx::connection] objects kept in a [std::queue], guarded by one
    [std::mutex] and one [std::condition_variable]; [acquire] hands a
    connection out as a [std::shared_ptr] whose deleter is
    [returnConnection].

    Modelling decisions.
    - A connection object is identified by a natural number ([Handle]), the
      index of the connection attempt that created it.
    - libpqxx and the database server are the collaborator: [Server] records
      how many connections were attempted, which are open and which were
      closed; whether the k-th attempt succeeds is the Section variable
      [connect_ok].
    - Every member function body runs under [mtx], so each body (and each
      re-test of the wait predicate) is one atomic transition.  A thread
      blocked in [connectionAvailable.wait] sits in the list
      [connectionAvailable]; a thread that was notified and has yet to
      re-lock [mtx] sits in [notified].
    - [std::shared_ptr] is modelled by its control block: [use_count] maps a
      leased handle to the number of outstanding references.
    - The end of the pool's life has two steps, the body of the destructor
      ([PgPool_dtor]) and the destruction of the members after it; [Object]
      tells a pool whose members exist from one whose members are gone. *)

From stdpp Require Import gmap strings list fin_maps.

(** ** Data model *)

Definition Handle := nat.
Definition Tid := nat.

Inductive exn : Type :=
| broken_connection
| runtime_error (what : string).

Definition shutting_down : exn :=
  runtime_error "Connection pool is shutting down"%string.

(** The database side: [attempts] counts calls of [pqxx::connection]'s
    constructor, [live] lists the open connections in the order they were
    opened, [closed] the ones destroyed so far. *)
Record Server : Type := mkServer {
  attempts : nat;
  live : list Handle;
  closed : list Handle
}.

(** The data members of [PgPool]; [pool] has the queue's front at its head.
    [mtx] has no field: it is the atomicity of the transitions.  [poolSize]
    is a [size_t]; the constructor's counter runs from 0 up to it and never
    wraps, so a natural number stands for it. *)
Record PgPool : Type := mkPgPool {
  connectionString : string;
  poolSize : nat;
  pool : list Handle;
  connectionAvailable : list Tid;
  stop : bool
}.

(** A pool object together with its surroundings. *)
Record World : Type := mkWorld {
  db : Server;
  self : PgPool;
  use_count : gmap Handle nat;
  notified : list Tid
}.

(** What the caller of one transition observes. *)
Inductive outcome : Type :=
| Acquired (h : Handle)
| Blocked
| Threw (e : exn)
| Done
| Returned (h : Handle)
| Undefined.

Inductive event : Type :=
| EvAcquire (t : Tid)
| EvSpurious (t : Tid)
| EvResume (t : Tid)
| EvCopy (h : Handle)
| EvDrop (h : Handle) (k : nat).

(** ** Field updates *)

Definition set_pool (q : list Handle) (p : PgPool) : PgPool :=
  mkPgPool (connectionString p) (poolSize p) q (connectionAvailable p) (stop p).

Definition set_waiters (ws : list Tid) (p : PgPool) : PgPool :=
  mkPgPool (connectionString p) (poolSize p) (pool p) ws (stop p).

Definition set_stop (b : bool) (p : PgPool) : PgPool :=
  mkPgPool (connectionString p) (poolSize p) (pool p) (connectionAvailable p) b.

Definition set_self (p : PgPool) (w : World) : World :=
  mkWorld (db w) p (use_count w) (notified w).

Definition set_db (sv : Server) (w : World) : World :=
  mkWorld sv (self w) (use_count w) (notified w).

Definition set_use_count (m : gmap Handle nat) (w : World) : World :=
  mkWorld (db w) (self w) m (notified w).

Definition set_notified (ts : list Tid) (w : World) : World :=
  mkWorld (db w) (self w) (use_count w) ts.

(** ** The collaborator *)

(** Destroying a [pqxx::connection] closes it. *)
Definition pqxx_close (h : Handle) (sv : Server) : Server :=
  mkServer (attempts sv)
           (filter (fun x => x <> h) (live sv))
           (closed sv ++ [h]).

Definition close_all (hs : list Handle) (sv : Server) : Server :=
  foldl (fun acc h => pqxx_close h acc) sv hs.

(** ** The condition variable *)

(** [notify_one]: one of the waiting threads, if there is any, is unblocked.
    Which one is not specified by the language; the selector [k] resolves
    the choice.  The result is the unblocked threads and the ones left. *)
Definition notify_one (k : nat) (ws : list Tid) : list Tid * list Tid :=
  match ws with
  | [] => ([], [])
  | _ :: _ =>
      let i := k mod length ws in
      (take 1 (drop i ws), delete i ws)
  end.

(** [notify_all]: every waiting thread is unblocked. *)
Definition notify_all (ws : list Tid) : list Tid * list Tid := (ws, []).

Section Pool.

(** [connect_ok cs k]: does the k-th connection attempt, made with the
    connection string [cs], succeed? *)
Variable connect_ok : string -> nat -> bool.

(** [pqxx::connection(connectionString)]: opens a connection or throws. *)
Definition pqxx_connect (cs : string) (sv : Server) : Server * option Handle :=
  let k := attempts sv in
  if connect_ok cs k
  then (mkServer (S k) (live sv ++ [k]) (closed sv), Some k)
  else (mkServer (S k) (live sv) (closed sv), None).

(** [createConnection]: [std::make_unique<pqxx::connection>(connectionString)]. *)
Definition createConnection (cs : string) (sv : Server) : Server * (exn + Handle) :=
  match pqxx_connect cs sv with
  | (sv', Some h) => (sv', inr h)
  | (sv', None) => (sv', inl broken_connection)
  end.

(** The constructor's loop, [n] iterations left, [q] the queue so far.
    When [createConnection] throws, the exception leaves the constructor
    and the already constructed member [pool] is destroyed, which
    destroys the connections it owns. *)
Fixpoint ctor_loop (n : nat) (cs : string) (sv : Server) (q : list Handle)
  : Server * (exn + list Handle) :=
  match n with
  | 0 => (sv, inr q)
  | S n' =>
      match createConnection cs sv with
      | (sv', inr h) => ctor_loop n' cs sv' (q ++ [h])
      | (sv', inl e) => (close_all q sv', inl e)
      end
  end.

(** [PgPool::PgPool(connectionString, poolSize)]. *)
Definition PgPool_ctor (cs : string) (n : nat) (sv : Server)
  : Server * (exn + PgPool) :=
  match ctor_loop n cs sv [] with
  | (sv', inr q) => (sv', inr (mkPgPool cs n q [] false))
  | (sv', inl e) => (sv', inl e)
  end.

(** A program that constructs its pool first: the world right after the
    constructor returned, nothing leased, nobody waiting. *)
Definition boot (cs : string) (n : nat) (sv : Server) : exn + World :=
  match PgPool_ctor cs n sv with
  | (sv', inr p) => inr (mkWorld sv' p ∅ [])
  | (_, inl e) => inl e
  end.

End Pool.

(** The wait predicate of [acquire]: [!pool.empty() || stop]. *)
Definition wait_pred (p : PgPool) : bool :=
  negb (bool_decide (pool p = [])) || stop p.

(** [PgPool::acquire], called by thread [t], from the locking of [mtx] to
    the point where the thread returns, throws or blocks in [wait].
    [pool.front()] on an empty queue has no defined behaviour; the wait
    predicate excludes it (see [acquire_defined]). *)
Definition acquire (t : Tid) (w : World) : World * outcome :=
  let p := self w in
  if wait_pred p then
    if stop p then (w, Threw shutting_down)
    else
      match pool p with
      | h :: q =>
          (set_use_count (<[h := 1]> (use_count w)) (set_self (set_pool q p) w),
           Acquired h)
      | [] => (w, Undefined)
      end
  else (set_self (set_waiters (connectionAvailable p ++ [t]) p) w, Blocked).

(** A notified thread re-locks [mtx] and goes round the loop of [wait]. *)
Definition resume (t : Tid) (w : World) : World * outcome :=
  acquire t (set_notified (filter (fun x => x <> t) (notified w)) w).

(** A spurious wakeup of a waiting thread. *)
Definition spurious (t : Tid) (w : World) : World :=
  set_notified (notified w ++ [t])
    (set_self (set_waiters (filter (fun x => x <> t) (connectionAvailable (self w)))
                           (self w)) w).

(** [PgPool::returnConnection]. *)
Definition returnConnection (h : Handle) (k : nat) (w : World) : World :=
  let p := self w in
  let '(woken, rest) := notify_one k (connectionAvailable p) in
  set_notified (notified w ++ woken)
    (set_self (set_waiters rest (set_pool (pool p ++ [h]) p)) w).

(** Copying a [shared_ptr] to [h]: the use count goes up.  There is
    nothing to copy when nobody holds a reference. *)
Definition shared_ptr_copy (h : Handle) (w : World) : option World :=
  match use_count w !! h with
  | Some (S n) => Some (set_use_count (<[h := S (S n)]> (use_count w)) w)
  | _ => None
  end.

(** Destroying a [shared_ptr]: the use count goes down, and the holder of
    the last reference runs the deleter, which is [returnConnection]. *)
Definition shared_ptr_drop (h : Handle) (k : nat) (w : World)
  : option (World * outcome) :=
  match use_count w !! h with
  | Some (S (S n)) => Some (set_use_count (<[h := S n]> (use_count w)) w, Done)
  | Some 1 =>
      Some (returnConnection h k (set_use_count (delete h (use_count w)) w),
            Returned h)
  | _ => None
  end.

(** The destructor's loop: while the queue is not empty, move the front
    out, pop it and [reset] it, which closes the connection.  The result is
    the queue left (empty) and the server after the closes. *)
Fixpoint drain (q : list Handle) (sv : Server) : list Handle * Server :=
  match q with
  | [] => ([], sv)
  | h :: q' => drain q' (pqxx_close h sv)
  end.

(** [PgPool::~PgPool]: the body, up to the unlocking of [mtx].  The
    members are destroyed after it; see [life_step]. *)
Definition PgPool_dtor (w : World) : World :=
  let p := self w in
  let '(woken, rest) := notify_all (connectionAvailable p) in
  let '(q, sv) := drain (pool p) (db w) in
  set_db sv
    (set_notified (notified w ++ woken)
       (set_self (set_pool q (set_waiters rest (set_stop true p))) w)).

(** ** Interleavings *)

Definition runnable (t : Tid) (w : World) : bool :=
  bool_decide (t ∉ connectionAvailable (self w)) && bool_decide (t ∉ notified w).

(** One transition of the system while the pool object is alive. *)
Definition step (w : World) (e : event) : option (World * outcome) :=
  match e with
  | EvAcquire t => if runnable t w then Some (acquire t w) else None
  | EvSpurious t =>
      if bool_decide (t ∈ connectionAvailable (self w))
      then Some (spurious t w, Done) else None
  | EvResume t =>
      if bool_decide (t ∈ notified w) then Some (resume t w) else None
  | EvCopy h => (fun w' => (w', Done)) <$> shared_ptr_copy h w
  | EvDrop h k => shared_ptr_drop h k w
  end.

Fixpoint run (w : World) (es : list event) : option (World * list outcome) :=
  match es with
  | [] => Some (w, [])
  | e :: es' =>
      match step w e with
      | Some (w', o) =>
          match run w' es' with
          | Some (w'', os) => Some (w'', o :: os)
          | None => None
          end
      | None => None
      end
  end.

(** The same thread, or several, calling [acquire] one call after the other. *)
Fixpoint acquire_all (ts : list Tid) (w : World) : World * list outcome :=
  match ts with
  | [] => (w, [])
  | t :: ts' =>
      let '(w', o) := acquire t w in
      let '(w'', os) := acquire_all ts' w' in
      (w'', o :: os)
  end.

(** ** Derived notions *)

(** The idle handles followed by the checked-out ones. *)
Definition handles_of (w : World) : list Handle :=
  pool (self w) ++ elements (dom (use_count w)).

Definition checked_out (w : World) : nat := size (dom (use_count w)).

(** The invariant of a live pool: the handles in circulation are the ones
    [hs] the constructor opened, the size field and the server are what the
    constructor left. *)
Record pool_inv (hs : list Handle) (n : nat) (sv : Server) (w : World) : Prop :=
  mk_pool_inv {
    inv_handles : handles_of w ≡ₚ hs;
    inv_size : poolSize (self w) = n;
    inv_db : db w = sv
  }.

(** The world a successful construction leaves, see [boot_inr]. *)
Definition fresh_world (cs : string) (n : nat) (sv : Server) : World :=
  mkWorld (mkServer (attempts sv + n) (live sv ++ seq (attempts sv) n) (closed sv))
          (mkPgPool cs n (seq (attempts sv) n) [] false) ∅ [].

(** ** The lifetime of the pool object *)

(** The body of [~PgPool] ends with the unlocking of [mtx]; the members
    [stop], [connectionAvailable], [mtx] and [pool] are destroyed right
    after it, and nothing waits for the threads that are still inside
    [acquire] or for the leases that are still out.  [Draining w] is the
    pool between the body and the destruction of its members.
    [Destroyed sv leases inside] is what is left afterwards: the server,
    the control blocks of the outstanding leases (their deleter keeps the
    [this] it captured) and the threads that have yet to leave [acquire].
    [Unspecified] is the state after a member of the destroyed pool has
    been used, for which the language defines nothing. *)
Inductive Object : Type :=
| Alive (w : World)
| Draining (w : World)
| Destroyed (sv : Server) (leases : gmap Handle nat) (inside : list Tid)
| Unspecified.

(** A transition of a thread or a lease, the body of the destructor, or
    the destruction of the members that follows it. *)
Inductive life_event : Type :=
| LOp (e : event)
| LDtorBody
| LDtorMembers.

Definition lift (mk : World -> Object) (r : option (World * outcome))
  : option (Object * outcome) :=
  match r with
  | Some (w', o) => Some (mk w', o)
  | None => None
  end.

(** Transitions once the members are gone.  Copying a lease, and dropping
    one that is not the last, touch the control block only.  A call of
    [acquire], a waiter that re-locks [mtx], and the deleter of the last
    reference, which calls [returnConnection], all use destroyed members.
    Nobody is blocked in [wait] any more: [notify_all] woke every waiter. *)
Definition dead_step (sv : Server) (leases : gmap Handle nat)
    (inside : list Tid) (e : event) : option (Object * outcome) :=
  match e with
  | EvAcquire t =>
      if bool_decide (t ∉ inside) then Some (Unspecified, Undefined) else None
  | EvSpurious _ => None
  | EvResume t =>
      if bool_decide (t ∈ inside) then Some (Unspecified, Undefined) else None
  | EvCopy h =>
      match leases !! h with
      | Some (S n) => Some (Destroyed sv (<[h := S (S n)]> leases) inside, Done)
      | _ => None
      end
  | EvDrop h _ =>
      match leases !! h with
      | Some (S (S n)) => Some (Destroyed sv (<[h := S n]> leases) inside, Done)
      | Some 1 => Some (Unspecified, Undefined)
      | _ => None
      end
  end.

(** One transition of the pool over its whole life.  The destruction of
    the member [pool] destroys the connections that a release put on the
    queue after the body had drained it. *)
Definition life_step (ob : Object) (e : life_event) : option (Object * outcome) :=
  match ob, e with
  | Alive w, LOp e' => lift Alive (step w e')
  | Alive w, LDtorBody => Some (Draining (PgPool_dtor w), Done)
  | Draining w, LOp e' => lift Draining (step w e')
  | Draining w, LDtorMembers =>
      Some (Destroyed (close_all (pool (self w)) (db w)) (use_count w)
              (notified w ++ connectionAvailable (self w)),
            Done)
  | Destroyed sv leases inside, LOp e' => dead_step sv leases inside e'
  | Unspecified, _ => Some (Unspecified, Undefined)
  | _, _ => None
  end.

Fixpoint life_run (ob : Object) (es : list life_event)
  : option (Object * list outcome) :=
  match es with
  | [] => Some (ob, [])
  | e :: es' =>
      match life_step ob e with
      | Some (ob', o) =>
          match life_run ob' es' with
          | Some (ob'', os) => Some (ob'', o :: os)
          | None => None
          end
      | None => None
      end
  end.

(** The reading of C5 as the specification states it: when the last
    reference to [h] is dropped after the pool has been destroyed, what
    results is a destroyed pool on whose server [h] is closed and of which
    no lease is left. *)
Definition late_release_closes (w : World) (h : Handle) (k : nat) : Prop :=
  exists sv leases inside os,
    life_run (Alive w) [LDtorBody; LDtorMembers; LOp (EvDrop h k)]
    = Some (Destroyed sv leases inside, os)
    /\ h ∈ closed sv /\ leases !! h = None.

(** A pool of size 1 whose only handle is leased to one owner. *)
Definition leased_world : World :=
  mkWorld (mkServer 1 [0] [])
          (mkPgPool "dbname=my_db"%string 1 [] [] false)
          {[0 := 1]} [].

(** ** Concrete servers, pools and runs *)

Definition server0 : Server := mkServer 0 [] [].
Definition always_ok : string -> nat -> bool := fun _ _ => true.

Definition cs0 : string := "dbname=my_db user=my_user host=localhost port=5432"%string.

(** The third connection attempt is refused, the others succeed. *)
Definition third_refused : string -> nat -> bool := fun _ k => negb (k =? 2).

(** A fresh pool of size 2. *)
Definition two_idle : World :=
  mkWorld (mkServer 2 [0; 1] []) (mkPgPool cs0 2 [0; 1] [] false) ∅ [].

(** The same pool after one call of [acquire]. *)
Definition one_leased : World :=
  mkWorld (mkServer 2 [0; 1] []) (mkPgPool cs0 2 [1] [] false) {[0 := 1]} [].

(** Thread 7 takes handle 0 and copies the lease, thread 8 takes handle 1,
    thread 9 blocks; both references to handle 0 are dropped, which wakes
    thread 9, and thread 9 takes handle 0. *)
Definition busy_events : list event :=
  [EvAcquire 7; EvCopy 0; EvAcquire 8; EvAcquire 9; EvDrop 0 0; EvDrop 0 5;
   EvResume 9].

Definition busy_outcomes : list outcome :=
  [Acquired 0; Done; Acquired 1; Blocked; Done; Returned 0; Acquired 0].

Definition busy_world : World :=
  mkWorld (mkServer 2 [0; 1] []) (mkPgPool cs0 2 [] [] false)
          {[0 := 1; 1 := 1]} [].

(** A pool between the destructor's body and the destruction of its
    members: both handles were leased when the body ran and thread 4 was
    waiting; handle 1 has come back since, thread 4 has yet to resume. *)
Definition draining_world : World :=
  mkWorld (mkServer 2 [0; 1] []) (mkPgPool cs0 2 [1] [] true) {[0 := 1]} [4].

(** A running pool with an empty queue, one lease and two waiters. *)
Definition starved_world : World :=
  mkWorld (mkServer 1 [0] []) (mkPgPool cs0 1 [] [4; 5] false) {[0 := 1]} [].

(** ** Well-formed servers and the bookkeeping of wake-ups *)

(** Handles are attempt indices, so a server that has made [attempts sv]
    attempts knows no handle from that number on. *)
Definition server_wf (sv : Server) : Prop :=
  forall h, h ∈ live sv \/ h ∈ closed sv -> h < attempts sv.

(** While the pool runs no thread is listed twice among the waiting and
    the notified ones, and whenever some thread waits, at least as many
    threads are notified as there are idle handles. *)
Definition wake_inv (w : World) : Prop :=
  stop (self w) = false
  /\ NoDup (connectionAvailable (self w) ++ notified w)
  /\ (connectionAvailable (self w) <> [] ->
      length (pool (self w)) <= length (notified w)).

(** ** The callers: examples/main.cpp and test/test.cpp *)

(** The default argument of the constructor. *)
Definition default_poolSize : nat := 100.

Definition sample_connectionString : string :=
  "dbname=my_db user=my_user password=my_password host=localhost port=5432"%string.

(** The samples and the tests run on one thread. *)
Definition main_thread : Tid := 0.

(** [pqxx::connection::is_open]. *)
Definition is_open (h : Handle) (w : World) : bool :=
  bool_decide (h ∈ live (db w)).

(** The destructor of a [shared_ptr] variable that holds a reference to
    [h], as it runs at the end of a scope or during unwinding. *)
Definition shared_ptr_dtor (h : Handle) (k : nat) (w : World) : World :=
  match shared_ptr_drop h k w with
  | Some (w', _) => w'
  | None => w
  end.

(** What can go wrong in a caller: the pool throws, or [pqxx::work] and
    [exec] do. *)
Inductive failure : Type :=
| pool_failure (e : exn)
| query_failure.

(** How a function ends: it returns, an exception leaves it (to a caller
    that handles it, so that the stack is unwound), or it never returns. *)
Inductive ending : Type :=
| Returns
| Throws (f : failure)
| Hangs.

(** [class SampleConsumer]: its member [dbConnection] is an empty
    [shared_ptr] or a reference to a handle. *)
Record SampleConsumer : Type := mkSampleConsumer {
  dbConnection : option Handle
}.

(** [SampleConsumer::setDbConnection]: the argument is passed by value (a
    copy of the caller's lease) and move-assigned to the member, which
    gives up the reference it held before. *)
Definition setDbConnection (h : Handle) (k : nat) (c : SampleConsumer) (w : World)
  : option (SampleConsumer * World) :=
  match shared_ptr_copy h w with
  | Some w1 =>
      match dbConnection c with
      | Some old => Some (mkSampleConsumer (Some h), shared_ptr_dtor old k w1)
      | None => Some (mkSampleConsumer (Some h), w1)
      end
  | None => None
  end.

(** [SampleConsumer::isConnectionOpen]; nothing is defined for an empty
    member. *)
Definition isConnectionOpen (c : SampleConsumer) (w : World) : option bool :=
  match dbConnection c with
  | Some h => Some (is_open h w)
  | None => None
  end.

(** The implicit destructor of [SampleConsumer] destroys the member. *)
Definition SampleConsumer_dtor (k : nat) (c : SampleConsumer) (w : World) : World :=
  match dbConnection c with
  | Some h => shared_ptr_dtor h k w
  | None => w
  end.

Section Callers.

Variable connect_ok : string -> nat -> bool.

(** [query_ok h]: do the [pqxx::work] opened on the connection [h] and
    its [exec] go through?  A query touches neither the pool nor
    the set of open connections. *)
Variable query_ok : Handle -> bool.

(** [SampleConsumer::queryData]. *)
Definition queryData (c : SampleConsumer) : option ending :=
  match dbConnection c with
  | Some h => Some (if query_ok h then Returns else Throws query_failure)
  | None => None
  end.

(** [simpleConnectionSample] of examples/main.cpp.  The lease leaves the
    inner scope, and the pool the function, on the normal path and on the
    exceptional one alike. *)
Definition simpleConnectionSample (sv : Server) : Server * ending :=
  match PgPool_ctor connect_ok sample_connectionString 10 sv with
  | (sv1, inl e) => (sv1, Throws (pool_failure e))
  | (sv1, inr p) =>
      match acquire main_thread (mkWorld sv1 p ∅ []) with
      | (w1, Acquired h) =>
          let w2 := shared_ptr_dtor h 0 w1 in
          (db (PgPool_dtor w2),
           if query_ok h then Returns else Throws query_failure)
      | (w1, Threw e) => (db (PgPool_dtor w1), Throws (pool_failure e))
      | (w1, _) => (db w1, Hangs)
      end
  end.

(** [sharedConnectionSample] of examples/main.cpp; the third component is
    what it writes after "Connection status:". *)
Definition sharedConnectionSample (sv : Server)
  : Server * ending * list (option bool) :=
  match PgPool_ctor connect_ok sample_connectionString default_poolSize sv with
  | (sv1, inl e) => (sv1, Throws (pool_failure e), [])
  | (sv1, inr p) =>
      let myConsumer := mkSampleConsumer None in
      match acquire main_thread (mkWorld sv1 p ∅ []) with
      | (w1, Acquired h) =>
          match setDbConnection h 0 myConsumer w1 with
          | Some (myConsumer1, w2) =>
              match queryData myConsumer1 with
              | Some Returns =>
                  let w3 := shared_ptr_dtor h 0 w2 in
                  let status := isConnectionOpen myConsumer1 w3 in
                  let w4 := SampleConsumer_dtor 0 myConsumer1 w3 in
                  (db (PgPool_dtor w4), Returns, [status])
              | Some e =>
                  let w3 := shared_ptr_dtor h 0 w2 in
                  let w4 := SampleConsumer_dtor 0 myConsumer1 w3 in
                  (db (PgPool_dtor w4), e, [])
              | None => (db w2, Hangs, [])
              end
          | None => (db w1, Hangs, [])
          end
      | (w1, Threw e) => (db (PgPool_dtor w1), Throws (pool_failure e), [])
      | (w1, _) => (db w1, Hangs, [])
      end
  end.

(** [TEST(PgPoolTest, SimpleConnection)] of test/test.cpp; the third
    component lists the values handed to [EXPECT_TRUE]. *)
Definition test_SimpleConnection (sv : Server) : Server * ending * list bool :=
  match PgPool_ctor connect_ok sample_connectionString 10 sv with
  | (sv1, inl e) => (sv1, Throws (pool_failure e), [])
  | (sv1, inr p) =>
      match acquire main_thread (mkWorld sv1 p ∅ []) with
      | (w1, Acquired h) =>
          let expect1 := is_open h w1 in
          let w2 := shared_ptr_dtor h 0 w1 in
          (db (PgPool_dtor w2),
           if query_ok h then Returns else Throws query_failure,
           [expect1])
      | (w1, Threw e) => (db (PgPool_dtor w1), Throws (pool_failure e), [])
      | (w1, _) => (db w1, Hangs, [])
      end
  end.

(** [TEST(PgPoolTest, SharedConnection)] of test/test.cpp. *)
Definition test_SharedConnection (sv : Server) : Server * ending * list bool :=
  match PgPool_ctor connect_ok sample_connectionString 10 sv with
  | (sv1, inl e) => (sv1, Throws (pool_failure e), [])
  | (sv1, inr p) =>
      let myConsumer := mkSampleConsumer None in
      match acquire main_thread (mkWorld sv1 p ∅ []) with
      | (w1, Acquired h) =>
          let expect1 := is_open h w1 in
          match setDbConnection h 0 myConsumer w1 with
          | Some (myConsumer1, w2) =>
              match queryData myConsumer1 with
              | Some Returns =>
                  let w3 := shared_ptr_dtor h 0 w2 in
                  match isConnectionOpen myConsumer1 w3 with
                  | Some expect2 =>
                      let w4 := SampleConsumer_dtor 0 myConsumer1 w3 in
                      (db (PgPool_dtor w4), Returns, [expect1; expect2])
                  | None => (db w3, Hangs, [expect1])
                  end
              | Some e =>
                  let w3 := shared_ptr_dtor h 0 w2 in
                  let w4 := SampleConsumer_dtor 0 myConsumer1 w3 in
                  (db (PgPool_dtor w4), e, [expect1])
              | None => (db w2, Hangs, [expect1])
              end
          | None => (db w1, Hangs, [expect1])
          end
      | (w1, Threw e) => (db (PgPool_dtor w1), Throws (pool_failure e), [])
      | (w1, _) => (db w1, Hangs, [])
      end
  end.

(** [main] of examples/main.cpp: the two samples, one after the other. *)
Definition main (sv : Server) : Server * ending * list (option bool) :=
  match simpleConnectionSample sv with
  | (sv1, Returns) => sharedConnectionSample sv1
  | (sv1, e) => (sv1, e, [])
  end.

End Callers.

(** ** More concrete inputs *)

(** A server that has seen four connections before the pool is built, two
    of them still open. *)
Definition old_server : Server := mkServer 4 [1; 3] [0; 2].

(** The attempt numbered 6 is refused, the others succeed. *)
Definition seventh_refused : string -> nat -> bool := fun _ k => negb (k =? 6).

(** Every query goes through. *)
Definition queries_ok : Handle -> bool := fun _ => true.

(** Threads 7 and 8 take both handles, threads 9 and 10 block, and handle
    0 comes back. *)
Definition crowded_events : list event :=
  [EvAcquire 7; EvAcquire 8; EvAcquire 9; EvAcquire 10; EvDrop 0 0].

Definition crowded_world : World :=
  mkWorld (mkServer 2 [0; 1] []) (mkPgPool cs0 2 [0] [10] false) {[1 := 1]} [9].

(** On the old server: both handles taken, handle 4 given back. *)
Definition half_returned : World :=
  mkWorld (mkServer 6 [1; 3; 4; 5] [0; 2]) (mkPgPool cs0 2 [4] [] false)
          {[5 := 1]} [].

(** * Properties *)

(** ** The collaborator and the constructor *)

Lemma close_all_app hs1 hs2 sv :
  close_all (hs1 ++ hs2) sv = close_all hs2 (close_all hs1 sv).
Proof. unfold close_all. apply foldl_app. Qed.

Lemma close_all_attempts hs sv : attempts (close_all hs sv) = attempts sv.
Proof.
  revert sv. induction hs as [|h hs IH]; intros sv; [done|].
  change (close_all (h :: hs) sv) with (close_all hs (pqxx_close h sv)).
  by rewrite IH.
Qed.

Lemma close_all_closed hs sv : closed (close_all hs sv) = closed sv ++ hs.
Proof.
  revert sv. induction hs as [|h hs IH]; intros sv.
  - by rewrite app_nil_r.
  - change (close_all (h :: hs) sv) with (close_all hs (pqxx_close h sv)).
    rewrite IH. simpl. by rewrite <- app_assoc.
Qed.

Lemma close_all_live hs sv :
  live (close_all hs sv) = filter (fun x => x ∉ hs) (live sv).
Proof.
  revert sv. induction hs as [|h hs IH]; intros sv.
  - simpl. induction (live sv) as [|x l IHl]; [done|].
    rewrite filter_cons_True; [by rewrite <- IHl | apply not_elem_of_nil].
  - change (close_all (h :: hs) sv) with (close_all hs (pqxx_close h sv)).
    rewrite IH. simpl. induction (live sv) as [|x l IHl]; [done|].
    destruct (decide (x = h)) as [->|Hne].
    + rewrite filter_cons_False by tauto.
      rewrite (filter_cons_False _ h) by (intros Hn; apply Hn; left).
      exact IHl.
    + rewrite (filter_cons_True _ x l) by done.
      destruct (decide (x ∈ hs)) as [Hin|Hnin].
      * rewrite !filter_cons_False; [exact IHl | | tauto].
        intros Hn; apply Hn; by right.
      * rewrite !filter_cons_True; [by rewrite IHl | | done].
        intros Hin; apply elem_of_cons in Hin as [?|?]; tauto.
Qed.

Lemma drain_spec q sv : drain q sv = ([], close_all q sv).
Proof. revert sv. induction q as [|h q IH]; intros sv; [done|]. apply IH. Qed.

Section PoolFacts.

Variable connect_ok : string -> nat -> bool.

Lemma ctor_loop_ok n : forall cs sv q,
  (forall i, i < n -> connect_ok cs (attempts sv + i) = true) ->
  ctor_loop connect_ok n cs sv q
  = (mkServer (attempts sv + n) (live sv ++ seq (attempts sv) n) (closed sv),
     inr (q ++ seq (attempts sv) n)).
Proof.
  induction n as [|n IH]; intros cs sv q Hok.
  - simpl. rewrite Nat.add_0_r, !app_nil_r. by destruct sv.
  - simpl. unfold createConnection, pqxx_connect.
    pose proof (Hok 0 ltac:(lia)) as H0. rewrite Nat.add_0_r in H0. rewrite H0.
    rewrite IH; simpl.
    + rewrite <- !app_assoc. simpl. do 3 f_equal. lia.
    + intros i Hi. rewrite <- Nat.add_succ_r. apply Hok. lia.
Qed.

Lemma ctor_loop_fail n : forall cs sv q i,
  i < n ->
  connect_ok cs (attempts sv + i) = false ->
  (forall j, j < i -> connect_ok cs (attempts sv + j) = true) ->
  ctor_loop connect_ok n cs sv q
  = (close_all (q ++ seq (attempts sv) i)
       (mkServer (attempts sv + S i) (live sv ++ seq (attempts sv) i) (closed sv)),
     inl broken_connection).
Proof.
  induction n as [|n IH]; intros cs sv q i Hi Hbad Hok; [lia|].
  simpl. unfold createConnection, pqxx_connect.
  destruct i as [|i].
  - rewrite Nat.add_0_r in Hbad. rewrite Hbad. simpl.
    rewrite !app_nil_r. do 3 f_equal. lia.
  - pose proof (Hok 0 ltac:(lia)) as H0. rewrite Nat.add_0_r in H0. rewrite H0.
    rewrite (IH _ _ _ i); simpl.
    + rewrite <- !app_assoc. simpl. do 3 f_equal. lia.
    + lia.
    + by rewrite <- Nat.add_succ_r.
    + intros j Hj. rewrite <- Nat.add_succ_r. apply Hok. lia.
Qed.

(** Either the first [n] attempts all succeed or there is a first one
    that fails. *)
Lemma first_failure cs a n :
  (forall i, i < n -> connect_ok cs (a + i) = true)
  \/ exists i0, i0 < n /\ connect_ok cs (a + i0) = false
                /\ forall j, j < i0 -> connect_ok cs (a + j) = true.
Proof.
  induction n as [|n [Hall|(i0 & Hlt & Hbad & Hmin)]].
  - left. intros i Hi. lia.
  - destruct (connect_ok cs (a + n)) eqn:E.
    + left. intros i Hi. destruct (decide (i = n)) as [->|Hne]; [done|].
      apply Hall. lia.
    + right. exists n. split; [lia|]. split; [done|]. exact Hall.
  - right. exists i0. split; [lia|]. split; [done|]. exact Hmin.
Qed.

End PoolFacts.

(** ** The cases of [acquire] and of [notify_one] *)

Lemma acquire_defined t w : (acquire t w).2 <> Undefined.
Proof.
  unfold acquire, wait_pred.
  destruct (stop (self w)) eqn:Hs.
  - rewrite orb_true_r. simpl. discriminate.
  - rewrite orb_false_r.
    destruct (pool (self w)) as [|h q] eqn:Hp; simpl; discriminate.
Qed.

(** The three ways [acquire] can go, decided by [stop] and the queue. *)
Lemma acquire_stopped t w :
  stop (self w) = true -> acquire t w = (w, Threw shutting_down).
Proof.
  intros Hs. unfold acquire, wait_pred. rewrite Hs, orb_true_r. done.
Qed.

Lemma acquire_empty t w :
  stop (self w) = false -> pool (self w) = [] ->
  acquire t w
  = (set_self (set_waiters (connectionAvailable (self w) ++ [t]) (self w)) w,
     Blocked).
Proof.
  intros Hs Hp. unfold acquire, wait_pred. rewrite Hs, Hp. done.
Qed.

Lemma acquire_front t w h q :
  stop (self w) = false -> pool (self w) = h :: q ->
  acquire t w
  = (set_use_count (<[h := 1]> (use_count w)) (set_self (set_pool q (self w)) w),
     Acquired h).
Proof.
  intros Hs Hp. unfold acquire, wait_pred. rewrite Hs, Hp. done.
Qed.

(** [notify_one] unblocks one waiting thread when there is one, none
    otherwise. *)
Lemma notify_one_spec k ws :
  (ws = [] /\ notify_one k ws = ([], []))
  \/ exists i t, ws !! i = Some t /\ notify_one k ws = ([t], delete i ws).
Proof.
  destruct ws as [|t0 ws]; [by left|right].
  set (l := t0 :: ws). unfold notify_one. fold l.
  assert (Hlt : k mod length l < length l) by (apply Nat.mod_upper_bound; done).
  destruct (lookup_lt_is_Some_2 l _ Hlt) as [t Ht].
  exists (k mod length l), t. split; [done|].
  by rewrite (drop_S l t _ Ht).
Qed.

(** ** The handles in circulation *)


Lemma elements_dom_insert_fresh (m : gmap Handle nat) h c :
  m !! h = None -> elements (dom (<[h := c]> m)) ≡ₚ h :: elements (dom m).
Proof.
  intros Hn. rewrite dom_insert_L. apply elements_union_singleton.
  by apply not_elem_of_dom.
Qed.

Lemma elements_dom_delete (m : gmap Handle nat) h c :
  m !! h = Some c -> elements (dom m) ≡ₚ h :: elements (dom (delete h m)).
Proof.
  intros Hs. rewrite <- (insert_delete_id m h c Hs) at 1.
  apply elements_dom_insert_fresh. apply lookup_delete_eq.
Qed.

Lemma dom_insert_present (m : gmap Handle nat) h c c' :
  m !! h = Some c -> dom (<[h := c']> m) = dom m.
Proof. intros Hs. apply dom_insert_lookup_L. eauto. Qed.


Lemma inv_fresh_front hs n sv w h q :
  NoDup hs -> pool_inv hs n sv w -> pool (self w) = h :: q ->
  use_count w !! h = None.
Proof.
  intros Hnd [Hperm _ _] Hp. rewrite <- Hperm in Hnd.
  unfold handles_of in Hnd. rewrite Hp in Hnd.
  apply NoDup_app in Hnd as (_ & Hdisj & _).
  apply not_elem_of_dom. intros Hin. apply (Hdisj h); [left|].
  by apply elem_of_elements.
Qed.

Lemma acquire_inv hs n sv t w :
  NoDup hs -> pool_inv hs n sv w -> pool_inv hs n sv (acquire t w).1.
Proof.
  intros Hnd Hinv. destruct (stop (self w)) eqn:Hs.
  { by rewrite acquire_stopped. }
  destruct (pool (self w)) as [|h q] eqn:Hp.
  - rewrite acquire_empty by done. destruct Hinv as [Hperm Hsz Hdb].
    by split.
  - rewrite (acquire_front t w h q) by done.
    pose proof (inv_fresh_front _ _ _ _ _ _ Hnd Hinv Hp) as Hfresh.
    destruct Hinv as [Hperm Hsz Hdb].
    split; simpl; [|done|done]. unfold handles_of in *. simpl.
    rewrite Hp in Hperm. rewrite <- Hperm.
    rewrite (elements_dom_insert_fresh _ _ _ Hfresh). simpl.
    by rewrite Permutation_middle.
Qed.

Lemma returnConnection_pool h k w :
  pool (self (returnConnection h k w)) = pool (self w) ++ [h].
Proof. unfold returnConnection. by destruct (notify_one _ _). Qed.

Lemma returnConnection_other h k w :
  db (returnConnection h k w) = db w
  /\ use_count (returnConnection h k w) = use_count w
  /\ stop (self (returnConnection h k w)) = stop (self w)
  /\ poolSize (self (returnConnection h k w)) = poolSize (self w).
Proof. unfold returnConnection. by destruct (notify_one _ _). Qed.

Lemma step_inv hs n sv w e w' o :
  NoDup hs -> pool_inv hs n sv w -> step w e = Some (w', o) ->
  pool_inv hs n sv w'.
Proof.
  intros Hnd Hinv Hstep. destruct e as [t|t|t|h|h k]; simpl in Hstep.
  - destruct (runnable t w); [|done]. injection Hstep as Hacq.
    pose proof (acquire_inv hs n sv t w Hnd Hinv) as Hnext.
    by rewrite Hacq in Hnext.
  - destruct (bool_decide _); [|done]. injection Hstep as <- _.
    destruct Hinv as [Hperm Hsz Hdb]. by split.
  - destruct (bool_decide _); [|done]. injection Hstep as Hacq.
    unfold resume in Hacq.
    pose proof (acquire_inv hs n sv t
                  (set_notified (filter (fun x => x <> t) (notified w)) w) Hnd)
      as Hnext.
    rewrite Hacq in Hnext. apply Hnext.
    destruct Hinv as [Hperm Hsz Hdb]. by split.
  - unfold shared_ptr_copy in Hstep.
    destruct (use_count w !! h) as [[|c]|] eqn:Hc; try done.
    injection Hstep as <- _. destruct Hinv as [Hperm Hsz Hdb].
    split; simpl; [|done|done]. unfold handles_of in *. simpl.
    by rewrite (dom_insert_present _ _ _ _ Hc).
  - unfold shared_ptr_drop in Hstep.
    destruct (use_count w !! h) as [c|] eqn:Hc; [|done].
    destruct Hinv as [Hperm Hsz Hdb].
    assert (Hlast : pool_inv hs n sv
              (returnConnection h k (set_use_count (delete h (use_count w)) w))).
    { pose proof (returnConnection_other h k
                    (set_use_count (delete h (use_count w)) w))
        as (Hd & Hu & _ & Hps).
      split; [|by rewrite Hps|by rewrite Hd].
      unfold handles_of in *. rewrite returnConnection_pool, Hu. simpl.
      rewrite <- Hperm, (elements_dom_delete _ _ _ Hc).
      rewrite <- app_assoc. done. }
    destruct c as [|[|c]]; [done| |]; injection Hstep as <- _; try exact Hlast.
    split; simpl; [|done|done]. unfold handles_of in *. simpl.
    by rewrite (dom_insert_present _ _ _ _ Hc).
Qed.

Lemma run_inv hs n sv es : forall w w' os,
  NoDup hs -> pool_inv hs n sv w -> run w es = Some (w', os) ->
  pool_inv hs n sv w'.
Proof.
  induction es as [|e es IH]; intros w w' os Hnd Hinv Hrun; simpl in Hrun.
  - by injection Hrun as <- _.
  - destruct (step w e) as [[w1 o]|] eqn:Hstep; [|done].
    destruct (run w1 es) as [[w2 os2]|] eqn:Hrest; [|done].
    injection Hrun as <- _.
    eapply IH; [done| |done]. eapply step_inv; eauto.
Qed.

Lemma pool_inv_count hs n sv w :
  pool_inv hs n sv w -> length (pool (self w)) + checked_out w = length hs.
Proof.
  intros [Hperm _ _]. rewrite <- Hperm. unfold handles_of, checked_out.
  by rewrite length_app.
Qed.

(** ** Sequences of [acquire] calls *)

(** While the pool runs and the queue holds [hs] at its front, [length hs]
    calls take exactly [hs], in that order. *)
Lemma acquire_all_front ts : forall w hs rest,
  stop (self w) = false -> pool (self w) = hs ++ rest -> length ts = length hs ->
  exists w', acquire_all ts w = (w', Acquired <$> hs)
             /\ pool (self w') = rest /\ stop (self w') = false.
Proof.
  induction ts as [|t ts IH]; intros w hs rest Hs Hp Hlen.
  - destruct hs; [|done]. exists w. by rewrite Hp.
  - destruct hs as [|h hs]; [done|]. simpl in Hlen.
    rewrite fmap_cons. cbn [acquire_all].
    rewrite (acquire_front t w h (hs ++ rest)) by done.
    destruct (IH (set_use_count (<[h := 1]> (use_count w))
                    (set_self (set_pool (hs ++ rest) (self w)) w)) hs rest)
      as (w' & Hall & Hp' & Hs'); [done|done|lia|].
    exists w'. by rewrite Hall.
Qed.

Lemma run_cons w e es :
  run w (e :: es)
  = match step w e with
    | Some (w', o) =>
        match run w' es with
        | Some (w'', os) => Some (w'', o :: os)
        | None => None
        end
    | None => None
    end.
Proof. reflexivity. Qed.

Lemma nobody_blocked_runnable t w :
  connectionAvailable (self w) = [] -> notified w = [] -> runnable t w = true.
Proof.
  intros Hcv Hnt. unfold runnable. rewrite Hcv, Hnt.
  by rewrite !bool_decide_eq_true_2 by apply not_elem_of_nil.
Qed.

Lemma run_acquire_front ts : forall w hs rest,
  stop (self w) = false -> connectionAvailable (self w) = [] -> notified w = [] ->
  pool (self w) = hs ++ rest -> length ts = length hs ->
  exists w', run w (EvAcquire <$> ts) = Some (w', Acquired <$> hs)
             /\ pool (self w') = rest /\ stop (self w') = false
             /\ connectionAvailable (self w') = [] /\ notified w' = [].
Proof.
  induction ts as [|t ts IH]; intros w hs rest Hs Hcv Hnt Hp Hlen.
  - destruct hs; [|done]. exists w. by rewrite Hp.
  - destruct hs as [|h hs]; [done|]. simpl in Hlen.
    rewrite !fmap_cons, run_cons. cbn [step].
    rewrite nobody_blocked_runnable by done.
    rewrite (acquire_front t w h (hs ++ rest)) by done.
    destruct (IH (set_use_count (<[h := 1]> (use_count w))
                    (set_self (set_pool (hs ++ rest) (self w)) w)) hs rest)
      as (w' & Hall & Hrest); [done|done|done|done|lia|].
    exists w'. by rewrite Hall.
Qed.

(** ** After the constructor *)

Section Booted.

Variable connect_ok : string -> nat -> bool.


Lemma ctor_ok cs n sv :
  (forall i, i < n -> connect_ok cs (attempts sv + i) = true) ->
  PgPool_ctor connect_ok cs n sv
  = (db (fresh_world cs n sv), inr (self (fresh_world cs n sv))).
Proof.
  intros Hok. unfold PgPool_ctor. by rewrite ctor_loop_ok.
Qed.

Lemma ctor_fail cs n sv i :
  i < n -> connect_ok cs (attempts sv + i) = false ->
  exists i0, i0 < n
    /\ PgPool_ctor connect_ok cs n sv
       = (close_all (seq (attempts sv) i0)
            (mkServer (attempts sv + S i0) (live sv ++ seq (attempts sv) i0)
               (closed sv)),
          inl broken_connection).
Proof.
  intros Hi Hbad.
  destruct (first_failure connect_ok cs (attempts sv) n)
    as [Hall|(i0 & Hlt & Hbad0 & Hmin)].
  - rewrite Hall in Hbad; done.
  - exists i0. split; [done|]. unfold PgPool_ctor.
    by rewrite (ctor_loop_fail connect_ok n cs sv [] i0).
Qed.

Lemma boot_inr cs n sv w :
  boot connect_ok cs n sv = inr w -> w = fresh_world cs n sv.
Proof.
  intros Hb. unfold boot in Hb.
  destruct (first_failure connect_ok cs (attempts sv) n)
    as [Hall|(i0 & Hlt & Hbad0 & _)].
  - rewrite (ctor_ok _ _ _ Hall) in Hb. by injection Hb as <-.
  - destruct (ctor_fail cs n sv i0 Hlt Hbad0) as (i1 & _ & Hc).
    by rewrite Hc in Hb.
Qed.

Lemma fresh_world_inv cs n sv :
  pool_inv (seq (attempts sv) n) n (db (fresh_world cs n sv)) (fresh_world cs n sv).
Proof.
  split; [|done|done]. unfold handles_of. simpl.
  rewrite dom_empty_L, elements_empty. by rewrite app_nil_r.
Qed.

End Booted.

(** A pool that owns no handle at all stays that way while it runs. *)
Lemma step_no_handles w e w' o :
  step w e = Some (w', o) ->
  stop (self w) = false -> pool (self w) = [] -> use_count w = ∅ ->
  stop (self w') = false /\ pool (self w') = [] /\ use_count w' = ∅
  /\ db w' = db w /\ (o = Blocked \/ o = Done).
Proof.
  intros Hstep Hs Hp Hu. destruct e as [t|t|t|h|h k]; simpl in Hstep.
  - destruct (runnable t w); [|done]. rewrite acquire_empty in Hstep by done.
    injection Hstep as <- <-. repeat split; try done. by left.
  - destruct (bool_decide _); [|done]. injection Hstep as <- <-.
    repeat split; try done. by right.
  - destruct (bool_decide _); [|done]. unfold resume in Hstep.
    rewrite acquire_empty in Hstep by done.
    injection Hstep as <- <-. repeat split; try done. by left.
  - unfold shared_ptr_copy in Hstep. by rewrite Hu, lookup_empty in Hstep.
  - unfold shared_ptr_drop in Hstep. by rewrite Hu, lookup_empty in Hstep.
Qed.

Lemma run_no_handles es : forall w w' os,
  run w es = Some (w', os) ->
  stop (self w) = false -> pool (self w) = [] -> use_count w = ∅ ->
  stop (self w') = false /\ pool (self w') = [] /\ use_count w' = ∅
  /\ db w' = db w /\ Forall (fun o => o = Blocked \/ o = Done) os.
Proof.
  induction es as [|e es IH]; intros w w' os Hrun Hs Hp Hu.
  - injection Hrun as <- <-. repeat split; try done.
  - rewrite run_cons in Hrun.
    destruct (step w e) as [[w1 o]|] eqn:Hstep; [|done].
    destruct (run w1 es) as [[w2 os2]|] eqn:Hrest; [|done].
    injection Hrun as <- <-.
    destruct (step_no_handles _ _ _ _ Hstep Hs Hp Hu) as (Hs1 & Hp1 & Hu1 & Hd1 & Ho).
    destruct (IH _ _ _ Hrest Hs1 Hp1 Hu1) as (Hs2 & Hp2 & Hu2 & Hd2 & Hos).
    repeat split; try done; [congruence|]. by constructor.
Qed.

Lemma dtor_fields w :
  PgPool_dtor w
  = mkWorld (close_all (pool (self w)) (db w))
            (mkPgPool (connectionString (self w)) (poolSize (self w)) [] [] true)
            (use_count w)
            (notified w ++ connectionAvailable (self w)).
Proof. unfold PgPool_dtor, notify_all. by rewrite drain_spec. Qed.

(** * Main results *)

Section Construction.

Variable connect_ok : string -> nat -> bool.

(** C7. The constructor makes [poolSize] connection attempts one after
    the other.  When they all succeed it has opened exactly the handles
    numbered [attempts sv .. attempts sv + n - 1], each pushed on the
    queue in that order, and nothing else changed on the server.  When
    one of them fails the constructor ends with the exception of the
    connection, at the first failing attempt; no pool object results and
    the connections opened before the failure have been closed. *)
Theorem ctor_opens_all_or_throws (cs : string) (n : nat) (sv : Server) :
  ((forall i, i < n -> connect_ok cs (attempts sv + i) = true) ->
   PgPool_ctor connect_ok cs n sv
   = (mkServer (attempts sv + n) (live sv ++ seq (attempts sv) n) (closed sv),
      inr (mkPgPool cs n (seq (attempts sv) n) [] false)))
  /\ (forall i, i < n -> connect_ok cs (attempts sv + i) = false ->
      boot connect_ok cs n sv = inl broken_connection
      /\ exists i0 sv',
           i0 <= i
           /\ connect_ok cs (attempts sv + i0) = false
           /\ PgPool_ctor connect_ok cs n sv = (sv', inl broken_connection)
           /\ attempts sv' = attempts sv + S i0
           /\ closed sv' = closed sv ++ seq (attempts sv) i0
           /\ forall h, h ∈ seq (attempts sv) i0 -> h ∉ live sv').
Proof.
  split.
  - intros Hok. by rewrite ctor_ok.
  - intros i Hi Hbad.
    destruct (first_failure connect_ok cs (attempts sv) n)
      as [Hall|(i0 & Hlt & Hbad0 & Hmin)].
    { rewrite Hall in Hbad; done. }
    assert (Hc : PgPool_ctor connect_ok cs n sv
                 = (close_all (seq (attempts sv) i0)
                      (mkServer (attempts sv + S i0)
                         (live sv ++ seq (attempts sv) i0) (closed sv)),
                    inl broken_connection)).
    { unfold PgPool_ctor.
      by rewrite (ctor_loop_fail connect_ok n cs sv [] i0). }
    split; [unfold boot; by rewrite Hc|].
    eexists i0, _. split.
    { destruct (decide (i0 <= i)) as [?|Hgt]; [done|].
      rewrite Hmin in Hbad; [done|lia]. }
    split; [done|]. split; [exact Hc|].
    rewrite close_all_attempts, close_all_closed, close_all_live. simpl.
    repeat split; try done.
    intros h Hh Hin. apply list_elem_of_filter in Hin as [Hnot _]. done.
Qed.

(** C2. From the end of a successful construction on, whatever calls of
    [acquire], wake-ups, copies and drops of leases follow, the idle
    handles plus the checked-out ones number [poolSize]; they are, up to
    order, the very handles the constructor opened; and the server is as
    the constructor left it: no connection attempted, opened or closed. *)
Theorem handles_conserved (cs : string) (n : nat) (sv : Server)
    (w w' : World) (es : list event) (os : list outcome) :
  boot connect_ok cs n sv = inr w ->
  run w es = Some (w', os) ->
  length (pool (self w')) + checked_out w' = n
  /\ poolSize (self w') = n
  /\ handles_of w' ≡ₚ seq (attempts sv) n
  /\ db w' = db w
  /\ live (db w) = live sv ++ seq (attempts sv) n.
Proof.
  intros Hb Hrun. apply boot_inr in Hb. subst w.
  pose proof (run_inv _ _ _ es _ _ _ (NoDup_seq (attempts sv) n)
                (fresh_world_inv cs n sv) Hrun) as Hinv.
  pose proof (pool_inv_count _ _ _ _ Hinv) as Hcount.
  rewrite length_seq in Hcount.
  destruct Hinv as [Hperm Hsz Hdb]. done.
Qed.

(** C8. On a freshly constructed pool of size [n], [n] calls of
    [acquire] in a row (no lease given back in between) each return a
    handle without blocking, and the call after them blocks. *)
Theorem first_n_acquires_then_block (cs : string) (n : nat) (sv : Server)
    (w : World) (ts : list Tid) (t : Tid) :
  boot connect_ok cs n sv = inr w ->
  length ts = n ->
  exists w' os w'',
    run w (EvAcquire <$> ts) = Some (w', os)
    /\ length os = n
    /\ Forall (fun o => exists h, o = Acquired h) os
    /\ step w' (EvAcquire t) = Some (w'', Blocked)
    /\ connectionAvailable (self w'') = [t].
Proof.
  intros Hb Hlen. apply boot_inr in Hb. subst w.
  destruct (run_acquire_front ts (fresh_world cs n sv) (seq (attempts sv) n) [])
    as (w' & Hrun & Hp & Hs & Hcv & Hnt); try done.
  { simpl. by rewrite app_nil_r. }
  { by rewrite length_seq. }
  eexists w', _, _. split; [exact Hrun|].
  split; [by rewrite length_fmap, length_seq|].
  split. { apply Forall_fmap, Forall_forall. intros h _. by exists h. }
  cbn [step]. rewrite nobody_blocked_runnable by done.
  rewrite acquire_empty by done. split; [done|]. simpl. by rewrite Hcv.
Qed.

(** C9. The idle set is a first-in first-out queue.  (i) A call of
    [acquire] on a running pool takes the handle at the front and leaves
    the rest in order.  (ii) [returnConnection] puts the handle at the
    back.  (iii) On a fresh pool of size [n] the first [n] calls return
    the handles in the order the constructor opened them.  (iv) After a
    handle is returned to a running pool, the calls that follow hand out
    every handle that was idle before it, in queue order, and only then
    the returned one. *)
Theorem idle_set_is_fifo :
  (forall t w h q,
      stop (self w) = false -> pool (self w) = h :: q ->
      (acquire t w).2 = Acquired h /\ pool (self (acquire t w).1) = q)
  /\ (forall h k w, pool (self (returnConnection h k w)) = pool (self w) ++ [h])
  /\ (forall cs n sv w ts,
      boot connect_ok cs n sv = inr w -> length ts = n ->
      (acquire_all ts w).2 = Acquired <$> seq (attempts sv) n
      /\ live (db w) = live sv ++ seq (attempts sv) n)
  /\ (forall h k w ts t,
      stop (self w) = false -> length ts = length (pool (self w)) ->
      (acquire_all (ts ++ [t]) (returnConnection h k w)).2
      = (Acquired <$> pool (self w)) ++ [Acquired h]).
Proof.
  split; [|split; [|split]].
  - intros t w h q Hs Hp. by rewrite (acquire_front t w h q).
  - apply returnConnection_pool.
  - intros cs n sv w ts Hb Hlen. apply boot_inr in Hb. subst w.
    destruct (acquire_all_front ts (fresh_world cs n sv) (seq (attempts sv) n) [])
      as (w' & Hall & _); try done.
    { simpl. by rewrite app_nil_r. }
    { by rewrite length_seq. }
    by rewrite Hall.
  - intros h k w ts t Hs Hlen.
    pose proof (returnConnection_other h k w) as (_ & _ & Hs' & _).
    destruct (acquire_all_front (ts ++ [t]) (returnConnection h k w)
                (pool (self w) ++ [h]) [])
      as (w' & Hall & _).
    { by rewrite Hs'. }
    { by rewrite returnConnection_pool, app_nil_r. }
    { rewrite !length_app. simpl. lia. }
    rewrite Hall. simpl. by rewrite fmap_app.
Qed.

(** C10. The constructor accepts [poolSize = 0]: it succeeds, makes no
    connection attempt and leaves an empty queue.  While such a pool
    runs, the queue stays empty, so every call of [acquire] blocks and
    every woken waiter blocks again; after the destructor has run, the
    call ends with the shutdown exception. *)
Theorem zero_size_pool_only_blocks (cs : string) (sv : Server) :
  PgPool_ctor connect_ok cs 0 sv = (sv, inr (mkPgPool cs 0 [] [] false))
  /\ boot connect_ok cs 0 sv = inr (mkWorld sv (mkPgPool cs 0 [] [] false) ∅ [])
  /\ forall es w os,
      run (mkWorld sv (mkPgPool cs 0 [] [] false) ∅ []) es = Some (w, os) ->
      pool (self w) = [] /\ stop (self w) = false /\ db w = sv
      /\ Forall (fun o => o = Blocked \/ o = Done) os
      /\ (forall t, (acquire t w).2 = Blocked)
      /\ (forall t, (resume t w).2 = Blocked)
      /\ (forall t, (acquire t (PgPool_dtor w)).2 = Threw shutting_down)
      /\ (forall t, (resume t (PgPool_dtor w)).2 = Threw shutting_down).
Proof.
  split; [done|]. split; [done|].
  intros es w os Hrun.
  destruct (run_no_handles es _ _ _ Hrun) as (Hs & Hp & Hu & Hd & Hos); try done.
  repeat split; try done.
  - intros t. by rewrite acquire_empty.
  - intros t. unfold resume. by rewrite acquire_empty.
  - intros t. rewrite acquire_stopped; [done|]. by rewrite dtor_fields.
  - intros t. unfold resume. rewrite acquire_stopped; [done|].
    by rewrite dtor_fields.
Qed.

End Construction.

(** ** Leases *)

Lemma acquire_acquired t w w1 h :
  acquire t w = (w1, Acquired h) ->
  stop (self w) = false
  /\ pool (self w) = h :: pool (self w1)
  /\ use_count w1 = <[h := 1]> (use_count w)
  /\ stop (self w1) = false.
Proof.
  intros Hacq. destruct (stop (self w)) eqn:Hs.
  { by rewrite acquire_stopped in Hacq. }
  destruct (pool (self w)) as [|h' q] eqn:Hp.
  - by rewrite acquire_empty in Hacq.
  - rewrite (acquire_front t w h' q) in Hacq by done.
    by injection Hacq as <- <-.
Qed.

Lemma drop_shared h k w c :
  use_count w !! h = Some (S (S c)) ->
  shared_ptr_drop h k w
  = Some (set_use_count (<[h := S c]> (use_count w)) w, Done).
Proof. intros Hc. unfold shared_ptr_drop. by rewrite Hc. Qed.

Lemma drop_last h k w :
  use_count w !! h = Some 1 ->
  shared_ptr_drop h k w
  = Some (returnConnection h k (set_use_count (delete h (use_count w)) w),
          Returned h).
Proof. intros Hc. unfold shared_ptr_drop. by rewrite Hc. Qed.

Lemma run_app es1 : forall w es2,
  run w (es1 ++ es2)
  = match run w es1 with
    | Some (w1, os1) =>
        match run w1 es2 with
        | Some (w2, os2) => Some (w2, os1 ++ os2)
        | None => None
        end
    | None => None
    end.
Proof.
  induction es1 as [|e es1 IH]; intros w es2.
  - simpl. by destruct (run w es2) as [[w2 os2]|].
  - rewrite <- app_comm_cons, !run_cons.
    destruct (step w e) as [[w1 o]|]; [|done]. rewrite IH.
    destruct (run w1 es1) as [[w2 os2]|]; [|done].
    by destruct (run w2 es2) as [[w3 os3]|].
Qed.

(** [n] copies of a lease add [n] to its use count and touch nothing else. *)
Lemma run_copies h n : forall w c,
  use_count w !! h = Some (S c) ->
  exists w', run w (replicate n (EvCopy h)) = Some (w', replicate n Done)
             /\ self w' = self w
             /\ use_count w' !! h = Some (S c + n).
Proof.
  induction n as [|n IH]; intros w c Hc.
  - exists w. by rewrite Nat.add_0_r.
  - destruct (IH (set_use_count (<[h := S (S c)]> (use_count w)) w) (S c))
      as (w' & Hrun & Hself & Hcount); [apply lookup_insert_eq|].
    exists w'. cbn [replicate]. rewrite run_cons. cbn [step].
    unfold shared_ptr_copy. rewrite Hc. cbn [fmap option_fmap option_map].
    rewrite Hrun. split; [done|]. split; [done|].
    rewrite Hcount. f_equal. lia.
Qed.

(** Drops that are not the last one take the use count down and touch
    nothing else. *)
Lemma run_drops h ks : forall w c,
  use_count w !! h = Some (S c + length ks) ->
  exists w', run w (EvDrop h <$> ks) = Some (w', replicate (length ks) Done)
             /\ self w' = self w
             /\ use_count w' !! h = Some (S c).
Proof.
  induction ks as [|k ks IH]; intros w c Hc.
  - exists w. simpl in Hc. rewrite Nat.add_0_r in Hc. done.
  - assert (Hc' : use_count w !! h = Some (S (S (c + length ks))))
      by (rewrite Hc; simpl; f_equal; lia).
    destruct (IH (set_use_count (<[h := S (c + length ks)]> (use_count w)) w) c)
      as (w' & Hrun & Hself & Hcount); [apply lookup_insert_eq|].
    exists w'. rewrite fmap_cons, run_cons. cbn [step length replicate].
    rewrite (drop_shared h k w (c + length ks) Hc'), Hrun. done.
Qed.

(** C1. A lease that [acquire] handed out and that was copied [n] times
    has [n + 1] owners (two owners for [n = 1]).  While [n] of them drop
    their references the deleter does not run and the queue is as it was;
    when the last owner drops its reference [returnConnection] runs and
    the handle is pushed on the queue, once; after that no reference is
    left whose drop could run the deleter again. *)
Theorem shared_lease_returns_once (t : Tid) (w w1 : World) (h : Handle)
    (n : nat) (ks : list nat) (k k' : nat) :
  acquire t w = (w1, Acquired h) ->
  length ks = n ->
  exists w2 w3,
    run w1 (replicate n (EvCopy h) ++ (EvDrop h <$> ks))
    = Some (w2, replicate (n + n) Done)
    /\ pool (self w2) = pool (self w1)
    /\ use_count w2 !! h = Some 1
    /\ step w2 (EvDrop h k) = Some (w3, Returned h)
    /\ pool (self w3) = pool (self w1) ++ [h]
    /\ use_count w3 !! h = None
    /\ step w3 (EvDrop h k') = None.
Proof.
  intros Hacq Hlen. apply acquire_acquired in Hacq as (_ & _ & Hu & _).
  assert (H1 : use_count w1 !! h = Some 1) by (rewrite Hu; apply lookup_insert_eq).
  destruct (run_copies h n w1 0 H1) as (wc & Hcopies & Hselfc & Hcountc).
  destruct (run_drops h ks wc 0) as (w2 & Hdrops & Hself2 & Hcount2).
  { by rewrite Hcountc, Hlen. }
  set (w3 := returnConnection h k (set_use_count (delete h (use_count w2)) w2)).
  assert (H3 : use_count w3 !! h = None).
  { unfold w3. pose proof (returnConnection_other h k
      (set_use_count (delete h (use_count w2)) w2)) as (_ & -> & _).
    apply lookup_delete_eq. }
  exists w2, w3.
  split. { rewrite run_app, Hcopies, Hdrops, Hlen. by rewrite replicate_add. }
  split; [by rewrite Hself2, Hselfc|].
  split; [done|].
  split. { cbn [step]. by rewrite (drop_last h k w2). }
  split. { unfold w3. rewrite returnConnection_pool. simpl.
           by rewrite Hself2, Hselfc. }
  split; [done|]. cbn [step]. unfold shared_ptr_drop. by rewrite H3.
Qed.

(** C3. On a pool whose [stop] flag is set, [acquire] throws the shutdown
    exception and the whole state is as before the call: the queue keeps
    its handles, nothing is leased, nobody joins the waiters.  The same
    holds for a notified waiter that re-tests the predicate: it throws,
    and neither the queue nor the leases change. *)
Theorem acquire_while_draining_throws (t : Tid) (w : World) :
  stop (self w) = true ->
  acquire t w = (w, Threw shutting_down)
  /\ (resume t w).2 = Threw shutting_down
  /\ self (resume t w).1 = self w
  /\ use_count (resume t w).1 = use_count w
  /\ db (resume t w).1 = db w.
Proof.
  intros Hs. split; [by apply acquire_stopped|].
  unfold resume. by rewrite acquire_stopped.
Qed.

(** A thread that was blocked when the pool was destroyed: it throws the
    shutdown exception when it re-locks the mutex before the members are
    destroyed, and nothing is defined for it when it does so after. *)
Lemma blocked_thread_at_destruction (w : World) (t : Tid) :
  t ∈ connectionAvailable (self w) ->
  (exists ob,
      life_run (Alive w) [LDtorBody; LOp (EvResume t)]
      = Some (ob, [Done; Threw shutting_down]))
  /\ life_run (Alive w) [LDtorBody; LDtorMembers; LOp (EvResume t)]
     = Some (Unspecified, [Done; Done; Undefined]).
Proof.
  intros Hin.
  assert (Hnt : t ∈ notified (PgPool_dtor w)).
  { rewrite dtor_fields. simpl. apply elem_of_app. by right. }
  split.
  - cbn [life_run life_step step lift]. rewrite bool_decide_eq_true_2 by done.
    unfold resume. rewrite acquire_stopped by (by rewrite dtor_fields).
    by eexists.
  - cbn [life_run life_step dead_step].
    rewrite bool_decide_eq_true_2; [done|].
    apply elem_of_app. by left.
Qed.

(** C4. The destructor's body sets [stop] and wakes every waiter, but
    the members are destroyed right after it without waiting for anybody.
    A pool of size 1 has its handle leased and threads 4 and 5 blocked in
    [acquire] when it is destroyed.  When thread 4 re-locks the mutex after
    the members are gone, its call does not end with the shutdown
    exception: it runs on destroyed members and nothing is defined for it;
    the same holds for a call of [acquire] made afterwards.  Only when the
    waiter wins the race against the destruction of the members does it
    throw the shutdown exception. *)
Theorem shutdown_race_is_undefined_for_waiters :
  connectionAvailable (self starved_world) = [4; 5]
  /\ life_run (Alive starved_world) [LDtorBody; LDtorMembers]
     = Some (Destroyed (mkServer 1 [0] []) {[0 := 1]} [4; 5], [Done; Done])
  /\ life_run (Alive starved_world) [LDtorBody; LDtorMembers; LOp (EvResume 4)]
     = Some (Unspecified, [Done; Done; Undefined])
  /\ life_run (Alive starved_world) [LDtorBody; LDtorMembers; LOp (EvAcquire 6)]
     = Some (Unspecified, [Done; Done; Undefined])
  /\ life_run (Alive starved_world) [LDtorBody; LOp (EvResume 4); LDtorMembers]
     = Some (Destroyed (mkServer 1 [0] []) {[0 := 1]} [5],
             [Done; Threw shutting_down; Done]).
Proof. repeat split; vm_compute; reflexivity. Qed.

(** C5 (as amended). A handle that is checked out when the pool is
    destroyed is not closed by the pool: the destructor closes the handles
    that are idle when it runs and no other, so that after its body and
    the destruction of the members the connection is still open and its
    lease still out.  The release hook, [returnConnection], has no close
    either: on whatever pool it runs it puts the handle on the queue and
    leaves the server as it is. *)
Theorem leased_handle_survives_destruction (w : World) (h : Handle) (c : nat) :
  use_count w !! h = Some c ->
  h ∉ pool (self w) ->
  h ∈ live (db w) ->
  h ∉ closed (db w) ->
  (exists sv leases inside,
      life_run (Alive w) [LDtorBody; LDtorMembers]
      = Some (Destroyed sv leases inside, [Done; Done])
      /\ h ∈ live sv
      /\ (h ∉ closed sv)
      /\ closed sv = closed (db w) ++ pool (self w)
      /\ leases !! h = Some c)
  /\ (forall w' k,
        db (returnConnection h k w') = db w'
        /\ pool (self (returnConnection h k w')) = pool (self w') ++ [h]).
Proof.
  intros Hc Hidle Hlive Hclosed. split.
  - cbn [life_run life_step]. rewrite dtor_fields. cbn [pool self db use_count].
    cbn [close_all foldl]. eexists _, _, _. split; [done|].
    rewrite close_all_live, close_all_closed.
    split; [by apply list_elem_of_filter|].
    split; [|done]. intros Hin. apply elem_of_app in Hin as [?|?]; done.
  - intros w' k. split; [|apply returnConnection_pool].
    by destruct (returnConnection_other h k w') as (? & _).
Qed.

(** C6. The drop of the last reference to a leased handle runs
    [returnConnection], whatever the value of [stop], which it leaves as
    it is: the handle is pushed on the queue, no connection is closed, and
    [notify_one] unblocks one waiting thread when there is one and none
    otherwise. *)
Theorem release_hook_reinserts_and_signals (w : World) (h : Handle) (k : nat) :
  use_count w !! h = Some 1 ->
  exists w',
    shared_ptr_drop h k w = Some (w', Returned h)
    /\ pool (self w') = pool (self w) ++ [h]
    /\ stop (self w') = stop (self w)
    /\ db w' = db w
    /\ use_count w' = delete h (use_count w)
    /\ ((connectionAvailable (self w) = []
         /\ connectionAvailable (self w') = []
         /\ notified w' = notified w)
        \/ exists i t,
             connectionAvailable (self w) !! i = Some t
             /\ connectionAvailable (self w') = delete i (connectionAvailable (self w))
             /\ notified w' = notified w ++ [t]).
Proof.
  intros Hc. eexists. split; [by apply drop_last|].
  split; [by rewrite returnConnection_pool|].
  pose proof (returnConnection_other h k
    (set_use_count (delete h (use_count w)) w)) as (Hd & Hu & Hs & _).
  split; [done|]. split; [done|]. split; [done|].
  unfold returnConnection. simpl.
  destruct (notify_one_spec k (connectionAvailable (self w)))
    as [[Hnil ->]|(i & t' & Hi & ->)]; simpl.
  - left. by rewrite app_nil_r.
  - right. by exists i, t'.
Qed.

(** * Concrete runs *)


Example boot_two_idle : boot always_ok cs0 2 server0 = inr two_idle.
Proof. reflexivity. Qed.

Example busy_run : run two_idle busy_events = Some (busy_world, busy_outcomes).
Proof. vm_compute. reflexivity. Qed.

(** The concrete worlds used below arise from a constructor call followed
    by calls of the pool's operations. *)
Example leased_world_reached :
  boot always_ok "dbname=my_db"%string 1 server0
  = inr (fresh_world "dbname=my_db"%string 1 server0)
  /\ acquire 7 (fresh_world "dbname=my_db"%string 1 server0)
     = (leased_world, Acquired 0).
Proof. split; vm_compute; reflexivity. Qed.

Example starved_world_reached :
  boot always_ok cs0 1 server0 = inr (fresh_world cs0 1 server0)
  /\ run (fresh_world cs0 1 server0) [EvAcquire 7; EvAcquire 4; EvAcquire 5]
     = Some (starved_world, [Acquired 0; Blocked; Blocked]).
Proof. split; vm_compute; reflexivity. Qed.

Example draining_world_reached :
  exists w,
    run two_idle [EvAcquire 7; EvAcquire 8; EvAcquire 4]
    = Some (w, [Acquired 0; Acquired 1; Blocked])
    /\ life_run (Alive w) [LDtorBody; LOp (EvDrop 1 0)]
       = Some (Draining draining_world, [Done; Returned 1]).
Proof. eexists. split; vm_compute; reflexivity. Qed.

Lemma shared_lease_returns_once_witness :
  acquire 7 two_idle = (one_leased, Acquired 0)
  /\ exists w2 w3,
       run one_leased [EvCopy 0; EvDrop 0 3] = Some (w2, [Done; Done])
       /\ pool (self w2) = [1]
       /\ use_count w2 !! 0 = Some 1
       /\ step w2 (EvDrop 0 4) = Some (w3, Returned 0)
       /\ pool (self w3) = [1] ++ [0]
       /\ use_count w3 !! 0 = None
       /\ step w3 (EvDrop 0 5) = None.
Proof.
  split; [vm_compute; reflexivity|].
  apply (shared_lease_returns_once 7 two_idle one_leased 0 1 [3] 4 5).
  - vm_compute; reflexivity.
  - reflexivity.
Defined.

Lemma handles_conserved_witness :
  boot always_ok cs0 2 server0 = inr two_idle
  /\ run two_idle busy_events = Some (busy_world, busy_outcomes)
  /\ length (pool (self busy_world)) + checked_out busy_world = 2
  /\ poolSize (self busy_world) = 2
  /\ handles_of busy_world ≡ₚ seq (attempts server0) 2
  /\ db busy_world = db two_idle
  /\ live (db two_idle) = live server0 ++ seq (attempts server0) 2.
Proof.
  split; [vm_compute; reflexivity|].
  split; [vm_compute; reflexivity|].
  apply (handles_conserved always_ok cs0 2 server0 two_idle busy_world
           busy_events busy_outcomes); vm_compute; reflexivity.
Defined.

Lemma acquire_while_draining_throws_witness :
  stop (self draining_world) = true
  /\ pool (self draining_world) = [1]
  /\ acquire 3 draining_world = (draining_world, Threw shutting_down)
  /\ (resume 3 draining_world).2 = Threw shutting_down
  /\ self (resume 3 draining_world).1 = self draining_world
  /\ use_count (resume 3 draining_world).1 = use_count draining_world
  /\ db (resume 3 draining_world).1 = db draining_world.
Proof.
  split; [reflexivity|]. split; [reflexivity|].
  apply (acquire_while_draining_throws 3 draining_world). reflexivity.
Defined.

(** C5, the counterexample.  The only handle of a pool of size 1 is leased
    when the pool is destroyed.  The later drop of that lease runs the
    deleter on the destroyed pool: no state results in which handle 0 is
    closed. *)
Lemma late_release_counterexample :
  life_run (Alive leased_world) [LDtorBody; LDtorMembers]
  = Some (Destroyed (mkServer 1 [0] []) {[0 := 1]} [], [Done; Done])
  /\ life_run (Alive leased_world) [LDtorBody; LDtorMembers; LOp (EvDrop 0 0)]
     = Some (Unspecified, [Done; Done; Undefined])
  /\ ~ late_release_closes leased_world 0 0.
Proof.
  assert (Hrun : life_run (Alive leased_world)
                   [LDtorBody; LDtorMembers; LOp (EvDrop 0 0)]
                 = Some (Unspecified, [Done; Done; Undefined]))
    by (vm_compute; reflexivity).
  split; [vm_compute; reflexivity|]. split; [exact Hrun|].
  intros (sv & leases & inside & os & Hlate & _).
  rewrite Hrun in Hlate. discriminate.
Qed.

Lemma leased_handle_survives_destruction_witness :
  use_count leased_world !! 0 = Some 1
  /\ (exists sv leases inside,
        life_run (Alive leased_world) [LDtorBody; LDtorMembers]
        = Some (Destroyed sv leases inside, [Done; Done])
        /\ 0 ∈ live sv
        /\ (0 ∉ closed sv)
        /\ closed sv = closed (db leased_world) ++ pool (self leased_world)
        /\ leases !! 0 = Some 1)
  /\ (forall w' k,
        db (returnConnection 0 k w') = db w'
        /\ pool (self (returnConnection 0 k w')) = pool (self w') ++ [0]).
Proof.
  split; [vm_compute; reflexivity|].
  apply (leased_handle_survives_destruction leased_world 0 1).
  - vm_compute; reflexivity.
  - apply not_elem_of_nil.
  - apply list_elem_of_here.
  - apply not_elem_of_nil.
Defined.

Lemma release_hook_reinserts_and_signals_witness :
  (stop (self starved_world) = false
   /\ exists w',
        shared_ptr_drop 0 3 starved_world = Some (w', Returned 0)
        /\ pool (self w') = pool (self starved_world) ++ [0]
        /\ stop (self w') = stop (self starved_world)
        /\ db w' = db starved_world
        /\ use_count w' = delete 0 (use_count starved_world)
        /\ ((connectionAvailable (self starved_world) = []
             /\ connectionAvailable (self w') = []
             /\ notified w' = notified starved_world)
            \/ exists i t,
                 connectionAvailable (self starved_world) !! i = Some t
                 /\ connectionAvailable (self w')
                    = delete i (connectionAvailable (self starved_world))
                 /\ notified w' = notified starved_world ++ [t]))
  /\ (stop (self draining_world) = true
      /\ exists w',
           shared_ptr_drop 0 3 draining_world = Some (w', Returned 0)
           /\ pool (self w') = pool (self draining_world) ++ [0]
           /\ stop (self w') = stop (self draining_world)
           /\ db w' = db draining_world
           /\ use_count w' = delete 0 (use_count draining_world)
           /\ ((connectionAvailable (self draining_world) = []
                /\ connectionAvailable (self w') = []
                /\ notified w' = notified draining_world)
               \/ exists i t,
                    connectionAvailable (self draining_world) !! i = Some t
                    /\ connectionAvailable (self w')
                       = delete i (connectionAvailable (self draining_world))
                    /\ notified w' = notified draining_world ++ [t])).
Proof.
  split; (split; [reflexivity|]).
  - apply (release_hook_reinserts_and_signals starved_world 0 3).
    vm_compute; reflexivity.
  - apply (release_hook_reinserts_and_signals draining_world 0 3).
    vm_compute; reflexivity.
Defined.

Lemma first_n_acquires_then_block_witness :
  boot always_ok cs0 2 server0 = inr two_idle
  /\ exists w' os w'',
       run two_idle (EvAcquire <$> [7; 7]) = Some (w', os)
       /\ length os = 2
       /\ Forall (fun o => exists h, o = Acquired h) os
       /\ step w' (EvAcquire 9) = Some (w'', Blocked)
       /\ connectionAvailable (self w'') = [9].
Proof.
  split; [vm_compute; reflexivity|].
  apply (first_n_acquires_then_block always_ok cs0 2 server0 two_idle [7; 7] 9);
    vm_compute; reflexivity.
Defined.

Lemma ctor_opens_all_or_throws_witness :
  PgPool_ctor always_ok cs0 3 server0
  = (mkServer 3 [0; 1; 2] [], inr (mkPgPool cs0 3 [0; 1; 2] [] false))
  /\ boot third_refused cs0 5 server0 = inl broken_connection
  /\ PgPool_ctor third_refused cs0 5 server0
     = (mkServer 3 [] [0; 1], inl broken_connection).
Proof.
  pose proof (ctor_opens_all_or_throws always_ok cs0 3 server0) as [Hok _].
  pose proof (ctor_opens_all_or_throws third_refused cs0 5 server0) as [_ Hbad].
  split; [apply Hok; reflexivity|].
  split; [apply (Hbad 2); [lia|reflexivity]|].
  vm_compute; reflexivity.
Defined.

Lemma idle_set_is_fifo_witness :
  (acquire 7 two_idle).2 = Acquired 0
  /\ pool (self (acquire 7 two_idle).1) = [1]
  /\ (acquire_all [7; 8] two_idle).2 = [Acquired 0; Acquired 1]
  /\ (acquire_all ([8] ++ [9]) (returnConnection 0 0 one_leased)).2
     = [Acquired 1; Acquired 0].
Proof.
  pose proof (idle_set_is_fifo always_ok) as (Hfront & _ & Hfresh & Hback).
  destruct (Hfront 7 two_idle 0 [1]) as [Ho Hq]; [reflexivity|reflexivity|].
  destruct (Hfresh cs0 2 server0 two_idle [7; 8]) as [Hall _];
    [reflexivity|reflexivity|].
  split; [exact Ho|]. split; [exact Hq|]. split; [exact Hall|].
  apply (Hback 0 0 one_leased [8] 9); reflexivity.
Defined.

Lemma zero_size_pool_only_blocks_witness :
  boot always_ok cs0 0 server0
  = inr (mkWorld server0 (mkPgPool cs0 0 [] [] false) ∅ [])
  /\ run (mkWorld server0 (mkPgPool cs0 0 [] [] false) ∅ [])
         [EvAcquire 1; EvSpurious 1; EvResume 1; EvAcquire 2]
     = Some (mkWorld server0 (mkPgPool cs0 0 [] [1; 2] false) ∅ [],
             [Blocked; Done; Blocked; Blocked])
  /\ (acquire 3 (mkWorld server0 (mkPgPool cs0 0 [] [1; 2] false) ∅ [])).2
     = Blocked
  /\ (acquire 3
        (PgPool_dtor (mkWorld server0 (mkPgPool cs0 0 [] [1; 2] false) ∅ []))).2
     = Threw shutting_down.
Proof.
  pose proof (zero_size_pool_only_blocks always_ok cs0 server0)
    as (_ & Hboot & Hrun).
  split; [exact Hboot|].
  assert (Hr : run (mkWorld server0 (mkPgPool cs0 0 [] [] false) ∅ [])
                 [EvAcquire 1; EvSpurious 1; EvResume 1; EvAcquire 2]
               = Some (mkWorld server0 (mkPgPool cs0 0 [] [1; 2] false) ∅ [],
                       [Blocked; Done; Blocked; Blocked]))
    by (vm_compute; reflexivity).
  split; [exact Hr|].
  destruct (Hrun _ _ _ Hr) as (_ & _ & _ & _ & Hacq & _ & Hdown & _).
  split; [apply Hacq|apply Hdown].
Defined.

(** * Further properties of the pool *)

(** ** Lists of handles and of threads *)

Lemma filter_notin_id (l hs : list nat) :
  (forall h, h ∈ l -> h ∉ hs) -> filter (fun x => x ∉ hs) l = l.
Proof.
  induction l as [|x l IH]; intros Hall; [done|].
  rewrite filter_cons_True by (apply Hall; left).
  f_equal. apply IH. intros h Hh. apply Hall. by right.
Qed.

Lemma filter_notin_nil (l hs : list nat) :
  (forall h, h ∈ l -> h ∈ hs) -> filter (fun x => x ∉ hs) l = [].
Proof.
  induction l as [|x l IH]; intros Hall; [done|].
  rewrite filter_cons_False.
  - apply IH. intros h Hh. apply Hall. by right.
  - intros Hn. apply Hn, Hall. left.
Qed.

Lemma filter_ne_id (l : list nat) t :
  t ∉ l -> filter (fun x => x <> t) l = l.
Proof.
  induction l as [|x l IH]; intros Hn; [done|].
  apply not_elem_of_cons in Hn as [Hne Hn].
  rewrite filter_cons_True by done. f_equal. by apply IH.
Qed.

Lemma filter_ne_perm (l : list nat) t :
  NoDup l -> t ∈ l -> l ≡ₚ t :: filter (fun x => x <> t) l.
Proof.
  induction l as [|x l IH]; intros Hnd Hin; [by apply elem_of_nil in Hin|].
  apply NoDup_cons in Hnd as [Hx Hnd].
  destruct (decide (x = t)) as [->|Hne].
  - rewrite filter_cons_False by tauto. by rewrite filter_ne_id.
  - rewrite filter_cons_True by done.
    apply elem_of_cons in Hin as [->|Hin]; [done|].
    rewrite (IH Hnd Hin) at 1. apply Permutation_swap.
Qed.

(** ** The destructor and the server *)

Lemma server_wf_fresh sv h : server_wf sv -> h ∈ live sv -> attempts sv <= h -> False.
Proof. intros Hwf Hin Hle. specialize (Hwf h (or_introl Hin)). lia. Qed.

(** X1. The destructor closes the idle handles, front to back, and no
    other connection: a connection is open afterwards exactly when it was
    open before and its handle was not idle.  It leaves the queue empty,
    [stop] set, nobody waiting, every former waiter notified, and the
    leases as they were. *)
Theorem dtor_closes_exactly_the_idle (w : World) :
  pool (self (PgPool_dtor w)) = []
  /\ stop (self (PgPool_dtor w)) = true
  /\ connectionAvailable (self (PgPool_dtor w)) = []
  /\ notified (PgPool_dtor w) = notified w ++ connectionAvailable (self w)
  /\ use_count (PgPool_dtor w) = use_count w
  /\ attempts (db (PgPool_dtor w)) = attempts (db w)
  /\ closed (db (PgPool_dtor w)) = closed (db w) ++ pool (self w)
  /\ forall h, h ∈ live (db (PgPool_dtor w))
               <-> h ∈ live (db w) /\ h ∉ pool (self w).
Proof.
  rewrite dtor_fields. simpl.
  rewrite close_all_attempts, close_all_closed, close_all_live.
  do 7 (split; [done|]).
  intros h. rewrite list_elem_of_filter. tauto.
Qed.

Section Lifecycle.

Variable connect_ok : string -> nat -> bool.

(** X2. A constructor call that fails leaves the server's open
    connections exactly as it found them: every connection it had opened
    before the failing attempt is closed again.  The exception is the one
    of the connection. *)
Theorem failed_ctor_leaks_nothing (cs : string) (n : nat) (sv sv' : Server)
    (e : exn) :
  server_wf sv ->
  PgPool_ctor connect_ok cs n sv = (sv', inl e) ->
  e = broken_connection
  /\ live sv' = live sv
  /\ attempts sv < attempts sv' <= attempts sv + n
  /\ server_wf sv'.
Proof.
  intros Hwf Hc.
  destruct (first_failure connect_ok cs (attempts sv) n)
    as [Hall|(i0 & Hlt & Hbad0 & Hmin)].
  { by rewrite (ctor_ok _ _ _ _ Hall) in Hc. }
  unfold PgPool_ctor in Hc.
  rewrite (ctor_loop_fail connect_ok n cs sv [] i0 Hlt Hbad0 Hmin) in Hc.
  injection Hc as <- <-. simpl.
  assert (Hlive : live (close_all (seq (attempts sv) i0)
                          (mkServer (attempts sv + S i0)
                             (live sv ++ seq (attempts sv) i0) (closed sv)))
                  = live sv).
  { rewrite close_all_live. simpl. rewrite filter_app.
    rewrite filter_notin_id, filter_notin_nil, app_nil_r; [done|done|].
    intros h Hh Hin. apply elem_of_seq in Hin.
    apply (server_wf_fresh sv h Hwf Hh). lia. }
  split; [done|]. split; [done|].
  rewrite close_all_attempts. simpl. split; [lia|].
  intros h. rewrite Hlive, close_all_closed, close_all_attempts. simpl.
  intros [Hin|Hin].
  - specialize (Hwf h (or_introl Hin)). lia.
  - apply elem_of_app in Hin as [Hin|Hin].
    + specialize (Hwf h (or_intror Hin)). lia.
    + apply elem_of_seq in Hin. lia.
Qed.

(** X3. Destroying a pool after any run of its operations closes every
    connection the constructor opened except the ones still leased: such
    a handle is open afterwards exactly when it is checked out.  The
    connections that were open before the pool existed stay open.  When
    every lease has been given back, the server's open connections are
    the ones from before the pool, and the closed ones have grown by the
    pool's handles. *)
Theorem destruction_leaves_only_leases (cs : string) (n : nat) (sv : Server)
    (w w' : World) (es : list event) (os : list outcome) :
  server_wf sv ->
  boot connect_ok cs n sv = inr w ->
  run w es = Some (w', os) ->
  (forall h, h ∈ seq (attempts sv) n ->
             (h ∈ live (db (PgPool_dtor w')) <-> h ∈ dom (use_count w')))
  /\ (forall h, h ∈ live sv -> h ∈ live (db (PgPool_dtor w')))
  /\ closed (db (PgPool_dtor w')) = closed sv ++ pool (self w')
  /\ (use_count w' = ∅ ->
      live (db (PgPool_dtor w')) = live sv
      /\ closed (db (PgPool_dtor w')) ≡ₚ closed sv ++ seq (attempts sv) n).
Proof.
  intros Hwf Hb Hrun. apply boot_inr in Hb. subst w.
  pose proof (run_inv _ _ _ es _ _ _ (NoDup_seq (attempts sv) n)
                (fresh_world_inv cs n sv) Hrun) as [Hperm _ Hdb].
  pose proof (NoDup_seq (attempts sv) n) as Hnd. rewrite <- Hperm in Hnd.
  unfold handles_of in Hperm, Hnd.
  apply NoDup_app in Hnd as (_ & Hdisj & _).
  rewrite dtor_fields. simpl. rewrite close_all_closed, close_all_live, Hdb.
  simpl.
  assert (Hpool : forall h, h ∈ pool (self w') -> h ∈ seq (attempts sv) n).
  { intros h Hh. rewrite <- Hperm. apply elem_of_app. by left. }
  split; [|split; [|split]].
  - intros h Hh. rewrite <- Hperm in Hh. rewrite list_elem_of_filter.
    split.
    + intros [Hnot _]. apply elem_of_app in Hh as [Hh|Hh]; [done|].
      by apply elem_of_elements in Hh.
    + intros Hdom. split.
      * intros Hin. apply (Hdisj h Hin). by apply elem_of_elements.
      * apply elem_of_app. right. rewrite <- Hperm. apply elem_of_app.
        right. by apply elem_of_elements.
  - intros h Hh. apply list_elem_of_filter. split.
    + intros Hin. apply Hpool, elem_of_seq in Hin.
      apply (server_wf_fresh sv h Hwf Hh). lia.
    + apply elem_of_app. by left.
  - done.
  - intros Hempty. rewrite Hempty, dom_empty_L, elements_empty, app_nil_r in Hperm.
    split; [|by rewrite Hperm].
    rewrite filter_app, filter_notin_id, filter_notin_nil, app_nil_r; [done| |].
    + intros h Hh. by rewrite Hperm.
    + intros h Hh Hin. apply Hpool, elem_of_seq in Hin.
      apply (server_wf_fresh sv h Hwf Hh). lia.
Qed.

End Lifecycle.

(** ** While the pool runs *)

Lemma step_running w e w' o :
  step w e = Some (w', o) -> stop (self w) = false ->
  stop (self w') = false /\ (forall x, o <> Threw x) /\ o <> Undefined.
Proof.
  intros Hstep Hs. destruct e as [t|t|t|h|h k]; simpl in Hstep.
  - destruct (runnable t w); [|done].
    destruct (pool (self w)) as [|h q] eqn:Hp.
    + rewrite acquire_empty in Hstep by done. by injection Hstep as <- <-.
    + rewrite (acquire_front t w h q) in Hstep by done.
      by injection Hstep as <- <-.
  - destruct (bool_decide _); [|done]. by injection Hstep as <- <-.
  - destruct (bool_decide _); [|done]. unfold resume in Hstep.
    destruct (pool (self w)) as [|h q] eqn:Hp.
    + rewrite acquire_empty in Hstep by done. by injection Hstep as <- <-.
    + rewrite (acquire_front t _ h q) in Hstep by done.
      by injection Hstep as <- <-.
  - unfold shared_ptr_copy in Hstep.
    destruct (use_count w !! h) as [[|c]|]; try done.
    by injection Hstep as <- <-.
  - unfold shared_ptr_drop in Hstep.
    destruct (use_count w !! h) as [[|[|c]]|]; try done;
      injection Hstep as <- <-; [|done].
    pose proof (returnConnection_other h k
                  (set_use_count (delete h (use_count w)) w)) as (_ & _ & -> & _).
    done.
Qed.

Lemma run_running es : forall w w' os,
  run w es = Some (w', os) -> stop (self w) = false ->
  stop (self w') = false
  /\ Forall (fun o => (forall x, o <> Threw x) /\ o <> Undefined) os.
Proof.
  induction es as [|e es IH]; intros w w' os Hrun Hs.
  - by injection Hrun as <- <-.
  - rewrite run_cons in Hrun.
    destruct (step w e) as [[w1 o]|] eqn:Hstep; [|done].
    destruct (run w1 es) as [[w2 os2]|] eqn:Hrest; [|done].
    injection Hrun as <- <-.
    destruct (step_running _ _ _ _ Hstep Hs) as (Hs1 & Ho).
    destruct (IH _ _ _ Hrest Hs1) as (Hs2 & Hos).
    split; [done|]. by constructor.
Qed.

(** A transition that hands a handle out is a call of [acquire], fresh or
    resumed, that found the handle at the front of the queue. *)
Lemma step_acquired w e w' h :
  step w e = Some (w', Acquired h) ->
  pool (self w) = h :: pool (self w')
  /\ use_count w' = <[h := 1]> (use_count w).
Proof.
  intros Hstep. destruct e as [t|t|t|h'|h' k]; simpl in Hstep.
  - destruct (runnable t w); [|done]. injection Hstep as Hacq.
    by apply acquire_acquired in Hacq as (_ & ? & ? & _).
  - by destruct (bool_decide _).
  - destruct (bool_decide _); [|done]. injection Hstep as Hacq.
    unfold resume in Hacq.
    by apply acquire_acquired in Hacq as (_ & ? & ? & _).
  - unfold shared_ptr_copy in Hstep.
    by destruct (use_count w !! h') as [[|c]|].
  - unfold shared_ptr_drop in Hstep.
    by destruct (use_count w !! h') as [[|[|c]]|].
Qed.

Lemma app_snoc_perm (ws nt : list Tid) t :
  ws ++ (nt ++ [t]) ≡ₚ t :: (ws ++ nt).
Proof. by rewrite app_assoc, <- Permutation_cons_append. Qed.

Lemma snoc_app_perm (ws nt : list Tid) t :
  (ws ++ [t]) ++ nt ≡ₚ t :: (ws ++ nt).
Proof. rewrite <- app_assoc. simpl. symmetry. apply Permutation_middle. Qed.

Lemma step_wake_inv w e w' o :
  wake_inv w -> step w e = Some (w', o) -> wake_inv w'.
Proof.
  intros (Hs & Hnd & Hlen) Hstep.
  pose proof (step_running _ _ _ _ Hstep Hs) as (Hs' & _).
  split; [done|]. clear Hs'.
  destruct e as [t|t|t|h|h k]; simpl in Hstep.
  - destruct (runnable t w) eqn:Hr; [|done].
    apply andb_true_iff in Hr as [Hw Hn].
    apply bool_decide_eq_true in Hw, Hn.
    destruct (pool (self w)) as [|h q] eqn:Hp.
    + rewrite acquire_empty in Hstep by done. injection Hstep as <- _. simpl.
      split; [|rewrite Hp; simpl; lia].
      rewrite snoc_app_perm. apply NoDup_cons. split; [|done].
      intros Hin. apply elem_of_app in Hin as [?|?]; done.
    + rewrite (acquire_front t w h q) in Hstep by done.
      injection Hstep as <- _. simpl. split; [done|].
      intros Hne. specialize (Hlen Hne). simpl in Hlen. lia.
  - destruct (bool_decide _) eqn:Hin; [|done].
    apply bool_decide_eq_true in Hin. injection Hstep as <- _. simpl.
    apply NoDup_app in Hnd as Hparts. destruct Hparts as (Hndw & _ & _).
    pose proof (filter_ne_perm _ t Hndw Hin) as Hperm.
    split.
    + rewrite app_snoc_perm, app_comm_cons, <- Hperm. done.
    + intros _. rewrite length_app. simpl.
      assert (Hne : connectionAvailable (self w) <> [])
        by (intros E; rewrite E in Hin; by apply elem_of_nil in Hin).
      specialize (Hlen Hne). lia.
  - destruct (bool_decide _) eqn:Hin; [|done].
    apply bool_decide_eq_true in Hin. unfold resume in Hstep.
    apply NoDup_app in Hnd as Hparts. destruct Hparts as (_ & Hdisj & Hndn).
    pose proof (filter_ne_perm _ t Hndn Hin) as Hperm.
    assert (Hall : NoDup (t :: (connectionAvailable (self w)
                     ++ filter (fun x => x <> t) (notified w)))).
    { rewrite Permutation_middle, <- Hperm. done. }
    apply NoDup_cons in Hall as [Hfresh Hrest].
    destruct (pool (self w)) as [|h q] eqn:Hp.
    + rewrite acquire_empty in Hstep by done. injection Hstep as <- _. simpl.
      split; [|rewrite Hp; simpl; lia].
      rewrite snoc_app_perm. by apply NoDup_cons.
    + rewrite (acquire_front t _ h q) in Hstep by done.
      injection Hstep as <- _. simpl. split; [done|].
      intros Hne. specialize (Hlen Hne). apply Permutation_length in Hperm.
      simpl in Hlen, Hperm. unfold Tid in *. lia.
  - unfold shared_ptr_copy in Hstep.
    destruct (use_count w !! h) as [[|c]|]; try done.
    by injection Hstep as <- _.
  - unfold shared_ptr_drop in Hstep.
    destruct (use_count w !! h) as [[|[|c]]|]; try done;
      injection Hstep as <- _; [|done].
    unfold returnConnection. simpl.
    destruct (notify_one_spec k (connectionAvailable (self w)))
      as [[Hnil ->]|(i & t & Hi & ->)]; simpl.
    + split; [|done]. rewrite app_nil_r.
      apply NoDup_app in Hnd as (_ & _ & ?). done.
    + pose proof (delete_Permutation _ _ _ Hi) as Hperm.
      split.
      * rewrite app_snoc_perm, app_comm_cons, <- Hperm. done.
      * intros _. rewrite !length_app. simpl.
        assert (Hne : connectionAvailable (self w) <> [])
          by (intros E; by rewrite E in Hi).
        specialize (Hlen Hne). lia.
Qed.

Lemma run_wake_inv es : forall w w' os,
  wake_inv w -> run w es = Some (w', os) -> wake_inv w'.
Proof.
  induction es as [|e es IH]; intros w w' os Hinv Hrun.
  - by injection Hrun as <- _.
  - rewrite run_cons in Hrun.
    destruct (step w e) as [[w1 o]|] eqn:Hstep; [|done].
    destruct (run w1 es) as [[w2 os2]|] eqn:Hrest; [|done].
    injection Hrun as <- _.
    eapply IH; [|done]. eapply step_wake_inv; eauto.
Qed.

Lemma fresh_world_wake_inv cs n sv : wake_inv (fresh_world cs n sv).
Proof. split; [done|]. split; [constructor|done]. Qed.

Section Running.

Variable connect_ok : string -> nat -> bool.

(** X4. A handle is never lent twice at a time.  In every state a live
    pool can reach, a transition that hands the handle [h] out finds [h]
    leased to nobody; afterwards exactly one reference to it exists and
    [h] is no longer in the queue.  The handle is one the constructor
    opened. *)
Theorem leased_handle_is_exclusive (cs : string) (n : nat) (sv : Server)
    (w w' w'' : World) (es : list event) (os : list outcome) (e : event)
    (h : Handle) :
  boot connect_ok cs n sv = inr w ->
  run w es = Some (w', os) ->
  step w' e = Some (w'', Acquired h) ->
  use_count w' !! h = None
  /\ use_count w'' !! h = Some 1
  /\ (h ∉ pool (self w''))
  /\ h ∈ seq (attempts sv) n.
Proof.
  intros Hb Hrun Hstep. apply boot_inr in Hb. subst w.
  pose proof (NoDup_seq (attempts sv) n) as Hnd.
  pose proof (run_inv _ _ _ es _ _ _ Hnd (fresh_world_inv cs n sv) Hrun) as Hinv.
  apply step_acquired in Hstep as [Hp Hu].
  split; [by eapply inv_fresh_front|].
  split; [rewrite Hu; apply lookup_insert_eq|].
  destruct Hinv as [Hperm _ _]. unfold handles_of in Hperm.
  rewrite <- Hperm, Hp in Hnd. split.
  - apply NoDup_app in Hnd as (Hq & _ & _). by apply NoDup_cons in Hq as [? _].
  - rewrite <- Hperm, Hp. left.
Qed.

(** X5. Between construction and destruction [acquire] never throws: in
    every run of a live pool each call returns a handle or blocks, and the
    [front()] of an empty queue is never taken. *)
Theorem running_pool_never_throws (cs : string) (n : nat) (sv : Server)
    (w w' : World) (es : list event) (os : list outcome) :
  boot connect_ok cs n sv = inr w ->
  run w es = Some (w', os) ->
  stop (self w') = false
  /\ Forall (fun o => (forall x, o <> Threw x) /\ o <> Undefined) os.
Proof.
  intros Hb Hrun. apply boot_inr in Hb. subst w.
  by apply (run_running es _ _ _ Hrun).
Qed.

(** X6. No wake-up is lost.  In every state a live pool can reach, no
    thread is listed twice among the waiting and the notified ones, and
    whenever a thread is blocked in [wait] at least as many threads have
    been notified and are on their way to the queue as there are idle
    handles in it. *)
Theorem no_lost_wakeup (cs : string) (n : nat) (sv : Server)
    (w w' : World) (es : list event) (os : list outcome) :
  boot connect_ok cs n sv = inr w ->
  run w es = Some (w', os) ->
  NoDup (connectionAvailable (self w') ++ notified w')
  /\ (connectionAvailable (self w') <> [] ->
      length (pool (self w')) <= length (notified w')).
Proof.
  intros Hb Hrun. apply boot_inr in Hb. subst w.
  destruct (run_wake_inv es _ _ _ (fresh_world_wake_inv cs n sv) Hrun)
    as (_ & Hnd & Hlen).
  done.
Qed.

End Running.

(** ** Returning a lease *)

(** X7. On a running pool with an empty queue and somebody waiting, the
    drop of the last reference to [h] wakes one of the waiters, and when
    that waiter is the next to reach the queue it returns from [acquire]
    with [h]. *)
Theorem returned_handle_reaches_a_waiter (w : World) (h : Handle) (k : nat) :
  stop (self w) = false ->
  pool (self w) = [] ->
  connectionAvailable (self w) <> [] ->
  use_count w !! h = Some 1 ->
  exists t w1 w2,
    t ∈ connectionAvailable (self w)
    /\ step w (EvDrop h k) = Some (w1, Returned h)
    /\ notified w1 = notified w ++ [t]
    /\ step w1 (EvResume t) = Some (w2, Acquired h)
    /\ pool (self w2) = []
    /\ use_count w2 !! h = Some 1.
Proof.
  intros Hs Hp Hne Hc.
  destruct (notify_one_spec k (connectionAvailable (self w)))
    as [[Hnil _]|(i & t & Hi & Hn)]; [done|].
  set (w1 := returnConnection h k (set_use_count (delete h (use_count w)) w)).
  assert (Hnt : notified w1 = notified w ++ [t]).
  { unfold w1, returnConnection. simpl. by rewrite Hn. }
  assert (Hp1 : pool (self w1) = [h]).
  { unfold w1. rewrite returnConnection_pool. simpl. by rewrite Hp. }
  assert (Hs1 : stop (self w1) = false).
  { unfold w1. by pose proof (returnConnection_other h k
      (set_use_count (delete h (use_count w)) w)) as (_ & _ & -> & _). }
  exists t, w1. eexists.
  split; [by eapply list_elem_of_lookup_2|].
  split; [cbn [step]; by rewrite (drop_last h k w)|].
  split; [done|].
  split.
  { cbn [step]. rewrite bool_decide_eq_true_2
      by (rewrite Hnt; apply elem_of_app; right; left).
    unfold resume. by rewrite (acquire_front t _ h []). }
  split; [done|]. simpl. apply lookup_insert_eq.
Qed.

(** X8. The notified waiter has no claim on the returned handle.  When
    another thread calls [acquire] after the return and before the waiter
    has re-locked the mutex, that thread gets the handle, and the waiter,
    re-testing the predicate, blocks again. *)
Theorem notified_waiter_can_lose_the_race (w : World) (h : Handle) (k : nat)
    (t2 : Tid) :
  stop (self w) = false ->
  pool (self w) = [] ->
  connectionAvailable (self w) <> [] ->
  use_count w !! h = Some 1 ->
  runnable t2 w = true ->
  exists t w1 w2 w3,
    t ∈ connectionAvailable (self w)
    /\ step w (EvDrop h k) = Some (w1, Returned h)
    /\ step w1 (EvAcquire t2) = Some (w2, Acquired h)
    /\ step w2 (EvResume t) = Some (w3, Blocked)
    /\ t ∈ connectionAvailable (self w3)
    /\ pool (self w3) = [].
Proof.
  intros Hs Hp Hne Hc Hr.
  apply andb_true_iff in Hr as [Hw Hn].
  apply bool_decide_eq_true in Hw, Hn.
  destruct (notify_one_spec k (connectionAvailable (self w)))
    as [[Hnil _]|(i & t & Hi & Hno)]; [done|].
  assert (Hin : t ∈ connectionAvailable (self w))
    by (by eapply list_elem_of_lookup_2).
  set (w1 := returnConnection h k (set_use_count (delete h (use_count w)) w)).
  assert (Hnt : notified w1 = notified w ++ [t]).
  { unfold w1, returnConnection. simpl. by rewrite Hno. }
  assert (Hcv : connectionAvailable (self w1)
                = delete i (connectionAvailable (self w))).
  { unfold w1, returnConnection. simpl. by rewrite Hno. }
  assert (Hp1 : pool (self w1) = [h]).
  { unfold w1. rewrite returnConnection_pool. simpl. by rewrite Hp. }
  assert (Hs1 : stop (self w1) = false).
  { unfold w1. by pose proof (returnConnection_other h k
      (set_use_count (delete h (use_count w)) w)) as (_ & _ & -> & _). }
  assert (Hr1 : runnable t2 w1 = true).
  { unfold runnable. rewrite Hcv, Hnt. apply andb_true_iff.
    split; apply bool_decide_eq_true.
    - intros Hd. apply Hw.
      rewrite (delete_Permutation _ _ _ Hi). by right.
    - intros Hd. apply elem_of_app in Hd as [Hd|Hd]; [done|].
      apply list_elem_of_singleton in Hd. subst t2. done. }
  exists t, w1. eexists. eexists.
  split; [done|].
  split; [cbn [step]; by rewrite (drop_last h k w)|].
  split. { cbn [step]. rewrite Hr1. by rewrite (acquire_front t2 w1 h []). }
  split.
  { cbn [step]. cbn [notified set_use_count set_self].
    rewrite bool_decide_eq_true_2
      by (rewrite Hnt; apply elem_of_app; right; left).
    unfold resume. by rewrite acquire_empty. }
  split; [|done]. simpl. apply elem_of_app. right. left.
Qed.

(** X9. Taking a handle and giving it back rotates the queue and restores
    everything else: the handle that was at the front is at the back, the
    leases, the server and [stop] are as before. *)
Theorem acquire_release_round_trip (t : Tid) (w : World) (h : Handle)
    (q : list Handle) (k : nat) :
  stop (self w) = false ->
  pool (self w) = h :: q ->
  use_count w !! h = None ->
  exists w1 w2,
    acquire t w = (w1, Acquired h)
    /\ shared_ptr_drop h k w1 = Some (w2, Returned h)
    /\ pool (self w2) = q ++ [h]
    /\ use_count w2 = use_count w
    /\ db w2 = db w
    /\ stop (self w2) = false
    /\ poolSize (self w2) = poolSize (self w).
Proof.
  intros Hs Hp Hfree.
  set (w1 := set_use_count (<[h := 1]> (use_count w))
               (set_self (set_pool q (self w)) w)).
  assert (H1 : use_count w1 !! h = Some 1) by apply lookup_insert_eq.
  exists w1. eexists.
  split; [by apply acquire_front|].
  split; [by apply drop_last|].
  rewrite returnConnection_pool.
  pose proof (returnConnection_other h k
    (set_use_count (delete h (use_count w1)) w1)) as (-> & -> & -> & ->).
  simpl. by rewrite delete_insert_id.
Qed.

(** X10. A spurious wake-up does no harm.  A waiter woken for no reason
    while the running pool's queue is empty re-tests the predicate and
    blocks again; the queue, the leases, the server and the notified
    threads are as before, and the same threads are waiting. *)
Theorem spurious_wakeup_changes_nothing (w : World) (t : Tid) :
  stop (self w) = false ->
  pool (self w) = [] ->
  t ∈ connectionAvailable (self w) ->
  NoDup (connectionAvailable (self w) ++ notified w) ->
  exists w1 w2,
    step w (EvSpurious t) = Some (w1, Done)
    /\ step w1 (EvResume t) = Some (w2, Blocked)
    /\ pool (self w2) = []
    /\ use_count w2 = use_count w
    /\ db w2 = db w
    /\ notified w2 = notified w
    /\ connectionAvailable (self w2) ≡ₚ connectionAvailable (self w).
Proof.
  intros Hs Hp Hin Hnd.
  apply NoDup_app in Hnd as (Hndw & Hdisj & _).
  eexists. eexists.
  split; [cbn [step]; by rewrite bool_decide_eq_true_2|].
  split.
  { cbn [step]. rewrite bool_decide_eq_true_2
      by (simpl; apply elem_of_app; right; left).
    unfold resume. by rewrite acquire_empty. }
  simpl. repeat split; try done.
  - rewrite filter_app, filter_ne_id by (by apply Hdisj).
    rewrite filter_cons_False, filter_nil, app_nil_r by tauto. done.
  - rewrite <- Permutation_cons_append. symmetry. by apply filter_ne_perm.
Qed.

(** * The callers *)

Lemma close_all_eq hs sv :
  close_all hs sv
  = mkServer (attempts sv) (filter (fun x => x ∉ hs) (live sv)) (closed sv ++ hs).
Proof.
  rewrite <- close_all_attempts with (hs := hs), <- close_all_live,
    <- close_all_closed.
  by destruct (close_all hs sv).
Qed.

(** Destroying a pool whose handles are all idle again. *)
Lemma dtor_all_idle cs n sv (hs : list Handle) :
  server_wf sv ->
  hs ≡ₚ seq (attempts sv) n ->
  db (PgPool_dtor
        (set_self (set_pool hs (self (fresh_world cs n sv))) (fresh_world cs n sv)))
  = mkServer (attempts sv + n) (live sv) (closed sv ++ hs).
Proof.
  intros Hwf Hperm. rewrite dtor_fields, close_all_eq. simpl. f_equal.
  rewrite filter_app, filter_notin_id, filter_notin_nil, app_nil_r; [done| |].
  - intros h Hh. by rewrite Hperm.
  - intros h Hh Hin. rewrite Hperm in Hin. apply elem_of_seq in Hin.
    apply (server_wf_fresh sv h Hwf Hh). lia.
Qed.

(** The first lease of a fresh pool, from [acquire] to the end of its
    scope: the handle is the first one opened, it is open while leased, and
    it ends at the back of the queue. *)
Lemma first_lease_scope cs m sv t k :
  exists w1,
    acquire t (fresh_world cs (S m) sv) = (w1, Acquired (attempts sv))
    /\ use_count w1 = {[attempts sv := 1]}
    /\ is_open (attempts sv) w1 = true
    /\ shared_ptr_dtor (attempts sv) k w1
       = set_self (set_pool (seq (S (attempts sv)) m ++ [attempts sv])
                            (self (fresh_world cs (S m) sv)))
                  (fresh_world cs (S m) sv).
Proof.
  eexists. split; [by apply (acquire_front t _ (attempts sv) (seq (S (attempts sv)) m))|].
  split; [simpl; by rewrite insert_empty|].
  split.
  { unfold is_open. apply bool_decide_eq_true. simpl.
    apply elem_of_app. right. left. }
  unfold shared_ptr_dtor. rewrite drop_last by apply lookup_insert_eq.
  unfold returnConnection. simpl.
  by rewrite delete_insert_id by apply lookup_empty.
Qed.

(** Sharing the lease with a consumer and dropping the caller's
    reference leaves the lease with one owner. *)
Lemma shared_lease_scope (w1 : World) (a : Handle) k k' :
  use_count w1 = {[a := 1]} ->
  exists w2,
    setDbConnection a k (mkSampleConsumer None) w1
    = Some (mkSampleConsumer (Some a), w2)
    /\ use_count w2 !! a = Some 2
    /\ shared_ptr_dtor a k' w2 = w1.
Proof.
  intros Hu. eexists. unfold setDbConnection, shared_ptr_copy.
  rewrite Hu, lookup_singleton_eq. simpl.
  split; [done|]. split; [apply lookup_insert_eq|].
  unfold shared_ptr_dtor. rewrite (drop_shared a k' _ 0) by apply lookup_insert_eq.
  simpl. rewrite insert_insert_eq, insert_singleton_eq, <- Hu. by destruct w1.
Qed.

Lemma fresh_world_eta cs n sv :
  mkWorld (db (fresh_world cs n sv)) (self (fresh_world cs n sv)) ∅ []
  = fresh_world cs n sv.
Proof. reflexivity. Qed.

Lemma rotated_seq a m : seq (S a) m ++ [a] ≡ₚ seq a (S m).
Proof. by rewrite <- Permutation_cons_append. Qed.

Lemma server_wf_after sv a' c' :
  server_wf sv -> attempts sv <= a' ->
  (forall h, h ∈ c' -> h < a') ->
  server_wf (mkServer a' (live sv) c').
Proof.
  intros Hwf Hle Hc h [Hin|Hin]; simpl in *.
  - specialize (Hwf h (or_introl Hin)). lia.
  - by apply Hc.
Qed.

Section CallerFacts.

Variable connect_ok : string -> nat -> bool.
Variable query_ok : Handle -> bool.

(** The server a failed constructor call leaves, [i0] being the first
    attempt that fails. *)
Lemma ctor_fail_exact cs n sv i0 :
  server_wf sv -> i0 < n ->
  connect_ok cs (attempts sv + i0) = false ->
  (forall j, j < i0 -> connect_ok cs (attempts sv + j) = true) ->
  PgPool_ctor connect_ok cs n sv
  = (mkServer (attempts sv + S i0) (live sv) (closed sv ++ seq (attempts sv) i0),
     inl broken_connection).
Proof.
  intros Hwf Hlt Hbad Hmin. unfold PgPool_ctor.
  rewrite (ctor_loop_fail connect_ok n cs sv [] i0 Hlt Hbad Hmin).
  rewrite close_all_eq. simpl. do 2 f_equal.
  rewrite filter_app, filter_notin_id, filter_notin_nil, app_nil_r; [done|done|].
  intros h Hh Hin. apply elem_of_seq in Hin.
  apply (server_wf_fresh sv h Hwf Hh). lia.
Qed.

Lemma simple_accepted sv :
  server_wf sv ->
  (forall i, i < 10 -> connect_ok sample_connectionString (attempts sv + i) = true) ->
  simpleConnectionSample connect_ok query_ok sv
  = (mkServer (attempts sv + 10) (live sv)
       (closed sv ++ seq (S (attempts sv)) 9 ++ [attempts sv]),
     if query_ok (attempts sv) then Returns else Throws query_failure).
Proof.
  intros Hwf Hok. unfold simpleConnectionSample. rewrite (ctor_ok _ _ _ _ Hok).
  destruct (first_lease_scope sample_connectionString 9 sv main_thread 0)
    as (w1 & Hacq & _ & _ & Hend).
  cbv beta iota. rewrite fresh_world_eta, Hacq. cbv beta iota zeta.
  rewrite Hend, dtor_all_idle; [done|done|apply rotated_seq].
Qed.

Lemma simple_refused sv i0 :
  server_wf sv -> i0 < 10 ->
  connect_ok sample_connectionString (attempts sv + i0) = false ->
  (forall j, j < i0 -> connect_ok sample_connectionString (attempts sv + j) = true) ->
  simpleConnectionSample connect_ok query_ok sv
  = (mkServer (attempts sv + S i0) (live sv) (closed sv ++ seq (attempts sv) i0),
     Throws (pool_failure broken_connection)).
Proof.
  intros Hwf Hlt Hbad Hmin. unfold simpleConnectionSample.
  by rewrite (ctor_fail_exact _ _ _ i0 Hwf Hlt Hbad Hmin).
Qed.

Lemma shared_accepted sv :
  server_wf sv ->
  (forall i, i < 100 -> connect_ok sample_connectionString (attempts sv + i) = true) ->
  sharedConnectionSample connect_ok query_ok sv
  = (mkServer (attempts sv + 100) (live sv)
       (closed sv ++ seq (S (attempts sv)) 99 ++ [attempts sv]),
     if query_ok (attempts sv) then Returns else Throws query_failure,
     if query_ok (attempts sv) then [Some true] else []).
Proof.
  intros Hwf Hok. unfold sharedConnectionSample, default_poolSize.
  rewrite (ctor_ok _ _ _ _ Hok).
  destruct (first_lease_scope sample_connectionString 99 sv main_thread 0)
    as (w1 & Hacq & Hu & Hopen & Hend).
  destruct (shared_lease_scope w1 (attempts sv) 0 0 Hu) as (w2 & Hset & _ & Hdrop).
  cbv beta iota. rewrite fresh_world_eta, Hacq. cbv beta iota zeta.
  rewrite Hset. unfold queryData, isConnectionOpen, SampleConsumer_dtor.
  cbn [dbConnection].
  destruct (query_ok (attempts sv)); cbv beta iota zeta;
    rewrite Hdrop, Hend, dtor_all_idle; try done; try apply rotated_seq.
  by rewrite Hopen.
Qed.

Lemma shared_refused sv i0 :
  server_wf sv -> i0 < 100 ->
  connect_ok sample_connectionString (attempts sv + i0) = false ->
  (forall j, j < i0 -> connect_ok sample_connectionString (attempts sv + j) = true) ->
  sharedConnectionSample connect_ok query_ok sv
  = (mkServer (attempts sv + S i0) (live sv) (closed sv ++ seq (attempts sv) i0),
     Throws (pool_failure broken_connection), []).
Proof.
  intros Hwf Hlt Hbad Hmin. unfold sharedConnectionSample, default_poolSize.
  by rewrite (ctor_fail_exact _ _ _ i0 Hwf Hlt Hbad Hmin).
Qed.

End CallerFacts.

Section CallerResults.

Variable connect_ok : string -> nat -> bool.
Variable query_ok : Handle -> bool.

Lemma closed_after_session sv n (hs : list Handle) :
  server_wf sv -> hs ≡ₚ seq (attempts sv) n ->
  forall h, h ∈ closed sv ++ hs -> h < attempts sv + n.
Proof.
  intros Hwf Hperm h Hin. apply elem_of_app in Hin as [Hin|Hin].
  - specialize (Hwf h (or_intror Hin)). lia.
  - rewrite Hperm in Hin. apply elem_of_seq in Hin. lia.
Qed.

Lemma closed_after_failure sv i0 :
  server_wf sv ->
  forall h, h ∈ closed sv ++ seq (attempts sv) i0 -> h < attempts sv + S i0.
Proof.
  intros Hwf h Hin. apply elem_of_app in Hin as [Hin|Hin].
  - specialize (Hwf h (or_intror Hin)). lia.
  - apply elem_of_seq in Hin. lia.
Qed.

(** On every path the first sample ends, with the open connections as it
    found them. *)
Lemma simple_any sv :
  server_wf sv ->
  live (simpleConnectionSample connect_ok query_ok sv).1 = live sv
  /\ server_wf (simpleConnectionSample connect_ok query_ok sv).1
  /\ (simpleConnectionSample connect_ok query_ok sv).2 <> Hangs.
Proof.
  intros Hwf.
  destruct (first_failure connect_ok sample_connectionString (attempts sv) 10)
    as [Hall|(i0 & Hlt & Hbad & Hmin)].
  - rewrite (simple_accepted _ _ _ Hwf Hall). cbn [fst snd live].
    split; [done|]. split; [|by destruct (query_ok _)].
    apply server_wf_after; [done|lia|].
    apply closed_after_session; [done|].
    apply rotated_seq.
  - rewrite (simple_refused _ _ _ i0 Hwf Hlt Hbad Hmin). cbn [fst snd live].
    split; [done|]. split; [|done].
    apply server_wf_after; [done|lia|]. by apply closed_after_failure.
Qed.

Lemma shared_any sv :
  server_wf sv ->
  live (sharedConnectionSample connect_ok query_ok sv).1.1 = live sv
  /\ server_wf (sharedConnectionSample connect_ok query_ok sv).1.1
  /\ (sharedConnectionSample connect_ok query_ok sv).1.2 <> Hangs
  /\ ((sharedConnectionSample connect_ok query_ok sv).1.2 = Returns ->
      (sharedConnectionSample connect_ok query_ok sv).2 = [Some true])
  /\ ((sharedConnectionSample connect_ok query_ok sv).1.2 <> Returns ->
      (sharedConnectionSample connect_ok query_ok sv).2 = []).
Proof.
  intros Hwf.
  destruct (first_failure connect_ok sample_connectionString (attempts sv) 100)
    as [Hall|(i0 & Hlt & Hbad & Hmin)].
  - rewrite (shared_accepted _ _ _ Hwf Hall). cbn [fst snd live].
    split; [done|]. split.
    { apply server_wf_after; [done|lia|].
      apply closed_after_session; [done|].
      apply rotated_seq. }
    by destruct (query_ok _).
  - rewrite (shared_refused _ _ _ i0 Hwf Hlt Hbad Hmin). cbn [fst snd live].
    split; [done|]. split; [|done].
    apply server_wf_after; [done|lia|]. by apply closed_after_failure.
Qed.

(** X11. [simpleConnectionSample] always ends, and whatever the server
    answers it leaves the set of open connections as it found it: every
    connection it opened is closed again, also when the constructor or the
    query throws.  When the ten connection attempts succeed, the lease is
    the first handle opened, it is back in the queue before the pool is
    destroyed, and the function returns exactly when the query goes
    through. *)
Theorem simpleConnectionSample_closes_what_it_opens (sv : Server) :
  server_wf sv ->
  live (simpleConnectionSample connect_ok query_ok sv).1 = live sv
  /\ (simpleConnectionSample connect_ok query_ok sv).2 <> Hangs
  /\ attempts sv <= attempts (simpleConnectionSample connect_ok query_ok sv).1
     <= attempts sv + 10
  /\ ((forall i, i < 10 ->
         connect_ok sample_connectionString (attempts sv + i) = true) ->
      simpleConnectionSample connect_ok query_ok sv
      = (mkServer (attempts sv + 10) (live sv)
           (closed sv ++ seq (S (attempts sv)) 9 ++ [attempts sv]),
         if query_ok (attempts sv) then Returns else Throws query_failure)).
Proof.
  intros Hwf. destruct (simple_any sv Hwf) as (Hlive & _ & Hend).
  split; [done|]. split; [done|]. split; [|by apply simple_accepted].
  destruct (first_failure connect_ok sample_connectionString (attempts sv) 10)
    as [Hall|(i0 & Hlt & Hbad & Hmin)].
  - rewrite (simple_accepted _ _ _ Hwf Hall). simpl. lia.
  - rewrite (simple_refused _ _ _ i0 Hwf Hlt Hbad Hmin). simpl. lia.
Qed.

(** X12. [sharedConnectionSample] always ends and leaves the open
    connections as it found them.  It writes a connection status only when
    it returns, and the status it writes is 1: after the caller's own
    reference has left its scope the consumer's copy keeps the handle
    leased and the connection open.  When the hundred connection attempts
    of the default pool size succeed, the result is the one given. *)
Theorem sharedConnectionSample_keeps_the_lease_open (sv : Server) :
  server_wf sv ->
  live (sharedConnectionSample connect_ok query_ok sv).1.1 = live sv
  /\ (sharedConnectionSample connect_ok query_ok sv).1.2 <> Hangs
  /\ ((sharedConnectionSample connect_ok query_ok sv).1.2 = Returns ->
      (sharedConnectionSample connect_ok query_ok sv).2 = [Some true])
  /\ ((sharedConnectionSample connect_ok query_ok sv).1.2 <> Returns ->
      (sharedConnectionSample connect_ok query_ok sv).2 = [])
  /\ ((forall i, i < 100 ->
         connect_ok sample_connectionString (attempts sv + i) = true) ->
      sharedConnectionSample connect_ok query_ok sv
      = (mkServer (attempts sv + 100) (live sv)
           (closed sv ++ seq (S (attempts sv)) 99 ++ [attempts sv]),
         if query_ok (attempts sv) then Returns else Throws query_failure,
         if query_ok (attempts sv) then [Some true] else [])).
Proof.
  intros Hwf. destruct (shared_any sv Hwf) as (Hlive & _ & Hend & Hret & Hnot).
  repeat (split; [done|]). by apply shared_accepted.
Qed.

(** X13. [main] runs the second sample only when the first one returned,
    and it always ends.  It returns exactly when all 110 connection
    attempts succeed and both queries go through; then the status written
    is 1, the open connections are the ones from before, and the 110
    connections are closed in the order in which the two destructors
    found them in their queues. *)
Theorem main_returns_with_everything_closed (sv : Server) :
  server_wf sv ->
  (main connect_ok query_ok sv).1.2 <> Hangs
  /\ ((main connect_ok query_ok sv).1.2 = Returns <->
      (forall i, i < 110 ->
         connect_ok sample_connectionString (attempts sv + i) = true)
      /\ query_ok (attempts sv) = true
      /\ query_ok (attempts sv + 10) = true)
  /\ ((main connect_ok query_ok sv).1.2 = Returns ->
      main connect_ok query_ok sv
      = (mkServer (attempts sv + 110) (live sv)
           (closed sv ++ (seq (S (attempts sv)) 9 ++ [attempts sv])
              ++ seq (S (attempts sv + 10)) 99 ++ [attempts sv + 10]),
         Returns, [Some true])).
Proof.
  intros Hwf.
  assert (Hexact :
    (forall i, i < 110 ->
       connect_ok sample_connectionString (attempts sv + i) = true) ->
    query_ok (attempts sv) = true -> query_ok (attempts sv + 10) = true ->
    main connect_ok query_ok sv
    = (mkServer (attempts sv + 110) (live sv)
         (closed sv ++ (seq (S (attempts sv)) 9 ++ [attempts sv])
            ++ seq (S (attempts sv + 10)) 99 ++ [attempts sv + 10]),
       Returns, [Some true])).
  { intros Hok Hq1 Hq2. unfold main.
    rewrite simple_accepted, Hq1; [|done|intros i Hi; apply Hok; lia].
    assert (Hwf' : server_wf (mkServer (attempts sv + 10) (live sv)
                     (closed sv ++ seq (S (attempts sv)) 9 ++ [attempts sv]))).
    { apply server_wf_after; [done|lia|].
      apply closed_after_session; [done|apply rotated_seq]. }
    rewrite (shared_accepted _ _ _ Hwf'); cbn [attempts live closed].
    + rewrite Hq2. do 2 f_equal. f_equal; [lia|].
      by rewrite <- app_assoc.
    + intros i Hi. rewrite <- Nat.add_assoc. apply Hok. lia. }
  assert (Hiff : (main connect_ok query_ok sv).1.2 = Returns ->
    (forall i, i < 110 ->
       connect_ok sample_connectionString (attempts sv + i) = true)
    /\ query_ok (attempts sv) = true
    /\ query_ok (attempts sv + 10) = true).
  { unfold main.
    destruct (first_failure connect_ok sample_connectionString (attempts sv) 10)
      as [Hall|(i0 & Hlt & Hbad & Hmin)];
      [|by rewrite (simple_refused _ _ _ i0 Hwf Hlt Hbad Hmin)].
    rewrite (simple_accepted _ _ _ Hwf Hall).
    destruct (query_ok (attempts sv)) eqn:Hq1; [|done].
    assert (Hwf' : server_wf (mkServer (attempts sv + 10) (live sv)
                     (closed sv ++ seq (S (attempts sv)) 9 ++ [attempts sv]))).
    { apply server_wf_after; [done|lia|].
      apply closed_after_session; [done|apply rotated_seq]. }
    destruct (first_failure connect_ok sample_connectionString
                (attempts sv + 10) 100)
      as [Hall2|(i0 & Hlt & Hbad & Hmin)];
      [|by rewrite (shared_refused _ _ _ i0 Hwf' Hlt Hbad Hmin)].
    rewrite (shared_accepted _ _ _ Hwf' Hall2). cbn [attempts fst snd].
    destruct (query_ok (attempts sv + 10)) eqn:Hq2; [|done].
    intros _. split; [|done].
    intros i Hi. destruct (decide (i < 10)) as [Hlo|Hhi]; [by apply Hall|].
    replace (attempts sv + i) with (attempts sv + 10 + (i - 10)) by lia.
    apply Hall2. lia. }
  split; [|split].
  - unfold main. destruct (simple_any sv Hwf) as (_ & Hwf1 & Hend).
    destruct (simpleConnectionSample connect_ok query_ok sv) as [sv1 [|f|]];
      simpl in *; try done.
    by destruct (shared_any sv1 Hwf1) as (_ & _ & ? & _).
  - split; [exact Hiff|]. intros (Hok & Hq1 & Hq2). by rewrite Hexact.
  - intros Hret. destruct (Hiff Hret) as (Hok & Hq1 & Hq2). by apply Hexact.
Qed.

End CallerResults.

Section TestResults.

Variable connect_ok : string -> nat -> bool.
Variable query_ok : Handle -> bool.

Lemma test_simple_accepted sv :
  server_wf sv ->
  (forall i, i < 10 -> connect_ok sample_connectionString (attempts sv + i) = true) ->
  test_SimpleConnection connect_ok query_ok sv
  = (mkServer (attempts sv + 10) (live sv)
       (closed sv ++ seq (S (attempts sv)) 9 ++ [attempts sv]),
     if query_ok (attempts sv) then Returns else Throws query_failure,
     [true]).
Proof.
  intros Hwf Hok. unfold test_SimpleConnection. rewrite (ctor_ok _ _ _ _ Hok).
  destruct (first_lease_scope sample_connectionString 9 sv main_thread 0)
    as (w1 & Hacq & _ & Hopen & Hend).
  cbv beta iota. rewrite fresh_world_eta, Hacq. cbv beta iota zeta.
  rewrite Hopen, Hend, dtor_all_idle; [done|done|apply rotated_seq].
Qed.

Lemma test_shared_accepted sv :
  server_wf sv ->
  (forall i, i < 10 -> connect_ok sample_connectionString (attempts sv + i) = true) ->
  test_SharedConnection connect_ok query_ok sv
  = (mkServer (attempts sv + 10) (live sv)
       (closed sv ++ seq (S (attempts sv)) 9 ++ [attempts sv]),
     if query_ok (attempts sv) then Returns else Throws query_failure,
     if query_ok (attempts sv) then [true; true] else [true]).
Proof.
  intros Hwf Hok. unfold test_SharedConnection. rewrite (ctor_ok _ _ _ _ Hok).
  destruct (first_lease_scope sample_connectionString 9 sv main_thread 0)
    as (w1 & Hacq & Hu & Hopen & Hend).
  destruct (shared_lease_scope w1 (attempts sv) 0 0 Hu) as (w2 & Hset & _ & Hdrop).
  cbv beta iota. rewrite fresh_world_eta, Hacq. cbv beta iota zeta.
  rewrite Hset. unfold queryData, isConnectionOpen, SampleConsumer_dtor.
  cbn [dbConnection].
  destruct (query_ok (attempts sv)); cbv beta iota zeta;
    rewrite Hdrop, Hopen, ?Hend, dtor_all_idle; try done; apply rotated_seq.
Qed.

Lemma tests_refused sv i0 :
  server_wf sv -> i0 < 10 ->
  connect_ok sample_connectionString (attempts sv + i0) = false ->
  (forall j, j < i0 -> connect_ok sample_connectionString (attempts sv + j) = true) ->
  test_SimpleConnection connect_ok query_ok sv
  = (mkServer (attempts sv + S i0) (live sv) (closed sv ++ seq (attempts sv) i0),
     Throws (pool_failure broken_connection), [])
  /\ test_SharedConnection connect_ok query_ok sv
     = (mkServer (attempts sv + S i0) (live sv) (closed sv ++ seq (attempts sv) i0),
        Throws (pool_failure broken_connection), []).
Proof.
  intros Hwf Hlt Hbad Hmin. unfold test_SimpleConnection, test_SharedConnection.
  by rewrite (ctor_fail_exact _ _ _ _ i0 Hwf Hlt Hbad Hmin).
Qed.

(** X14. The expectations of the two tests hold whenever they are reached:
    on every path each value handed to [EXPECT_TRUE] is true, the test
    ends, and the open connections are as before.  When the ten
    connection attempts succeed and the query goes through, the first test
    checks one expectation and the second checks two, and both return. *)
Theorem test_expectations_hold (sv : Server) :
  server_wf sv ->
  Forall (fun b => b = true) (test_SimpleConnection connect_ok query_ok sv).2
  /\ Forall (fun b => b = true) (test_SharedConnection connect_ok query_ok sv).2
  /\ live (test_SimpleConnection connect_ok query_ok sv).1.1 = live sv
  /\ live (test_SharedConnection connect_ok query_ok sv).1.1 = live sv
  /\ (test_SimpleConnection connect_ok query_ok sv).1.2 <> Hangs
  /\ (test_SharedConnection connect_ok query_ok sv).1.2 <> Hangs
  /\ ((forall i, i < 10 ->
         connect_ok sample_connectionString (attempts sv + i) = true) ->
      query_ok (attempts sv) = true ->
      (test_SimpleConnection connect_ok query_ok sv).1.2 = Returns
      /\ (test_SimpleConnection connect_ok query_ok sv).2 = [true]
      /\ (test_SharedConnection connect_ok query_ok sv).1.2 = Returns
      /\ (test_SharedConnection connect_ok query_ok sv).2 = [true; true]).
Proof.
  intros Hwf.
  destruct (first_failure connect_ok sample_connectionString (attempts sv) 10)
    as [Hall|(i0 & Hlt & Hbad & Hmin)].
  - rewrite (test_simple_accepted _ Hwf Hall), (test_shared_accepted _ Hwf Hall).
    cbn [fst snd live].
    split; [by repeat constructor|].
    split; [destruct (query_ok _); by repeat constructor|].
    split; [done|]. split; [done|].
    split; [by destruct (query_ok _)|]. split; [by destruct (query_ok _)|].
    intros _ ->. done.
  - destruct (tests_refused _ i0 Hwf Hlt Hbad Hmin) as [-> ->].
    cbn [fst snd live].
    do 6 (split; [done|]).
    intros Hall. by rewrite (Hall i0 Hlt) in Hbad.
Qed.

End TestResults.

(** ** [SampleConsumer] *)

(** X15. A consumer holds one lease at a time.  [setDbConnection] with
    the lease of another handle takes a reference to the new handle and
    gives up the one to the old handle; when that was the last reference,
    the old handle goes back to the pool's queue.  The consumer then
    reports on the new connection. *)
Theorem setDbConnection_replaces_the_lease (w : World) (h old : Handle)
    (k c : nat) (consumer : SampleConsumer) :
  dbConnection consumer = Some old ->
  old <> h ->
  use_count w !! h = Some (S c) ->
  use_count w !! old = Some 1 ->
  exists consumer' w',
    setDbConnection h k consumer w = Some (consumer', w')
    /\ dbConnection consumer' = Some h
    /\ use_count w' !! h = Some (S (S c))
    /\ use_count w' !! old = None
    /\ pool (self w') = pool (self w) ++ [old]
    /\ isConnectionOpen consumer' w' = Some (is_open h w).
Proof.
  intros Hold Hne Hh Ho. unfold setDbConnection, shared_ptr_copy.
  rewrite Hh, Hold.
  set (w1 := set_use_count (<[h := S (S c)]> (use_count w)) w).
  assert (Ho1 : use_count w1 !! old = Some 1)
    by (unfold w1; simpl; by rewrite lookup_insert_ne).
  unfold shared_ptr_dtor. rewrite (drop_last old k w1 Ho1).
  pose proof (returnConnection_other old k
    (set_use_count (delete old (use_count w1)) w1)) as (Hd & Hu & _).
  eexists _, _. split; [done|]. split; [done|].
  unfold isConnectionOpen, is_open. cbn [dbConnection].
  rewrite Hu, Hd, returnConnection_pool. simpl.
  split; [by rewrite lookup_delete_ne, lookup_insert_eq|].
  split; [apply lookup_delete_eq|]. done.
Qed.

(** * Concrete runs of the further properties *)

Lemma old_server_wf : server_wf old_server.
Proof.
  intros h [Hin|Hin]; simpl in Hin;
    repeat (apply elem_of_cons in Hin as [->|Hin]; [simpl; lia|]);
    by apply elem_of_nil in Hin.
Qed.

Lemma failed_ctor_leaks_nothing_witness :
  PgPool_ctor seventh_refused cs0 5 old_server
  = (mkServer 7 [1; 3] [0; 2; 4; 5], inl broken_connection)
  /\ broken_connection = broken_connection
  /\ live (mkServer 7 [1; 3] [0; 2; 4; 5]) = live old_server
  /\ attempts old_server < attempts (mkServer 7 [1; 3] [0; 2; 4; 5])
     <= attempts old_server + 5
  /\ server_wf (mkServer 7 [1; 3] [0; 2; 4; 5]).
Proof.
  split; [vm_compute; reflexivity|].
  apply (failed_ctor_leaks_nothing
           seventh_refused cs0 5 old_server
           (mkServer 7 [1; 3] [0; 2; 4; 5]) broken_connection old_server_wf).
  vm_compute; reflexivity.
Defined.

Example half_returned_reached :
  boot always_ok cs0 2 old_server = inr (fresh_world cs0 2 old_server)
  /\ run (fresh_world cs0 2 old_server) [EvAcquire 7; EvAcquire 8; EvDrop 4 0]
     = Some (half_returned, [Acquired 4; Acquired 5; Returned 4])
  /\ db (PgPool_dtor half_returned) = mkServer 6 [1; 3; 5] [0; 2; 4].
Proof. repeat split; vm_compute; reflexivity. Qed.

Example crowded_run :
  run two_idle crowded_events
  = Some (crowded_world, [Acquired 0; Acquired 1; Blocked; Blocked; Returned 0]).
Proof. vm_compute; reflexivity. Qed.

Lemma destruction_leaves_only_leases_witness :
  (forall h, h ∈ seq (attempts old_server) 2 ->
             (h ∈ live (db (PgPool_dtor half_returned))
              <-> h ∈ dom (use_count half_returned)))
  /\ (forall h, h ∈ live old_server -> h ∈ live (db (PgPool_dtor half_returned)))
  /\ closed (db (PgPool_dtor half_returned))
     = closed old_server ++ pool (self half_returned)
  /\ (use_count half_returned = ∅ ->
      live (db (PgPool_dtor half_returned)) = live old_server
      /\ closed (db (PgPool_dtor half_returned))
         ≡ₚ closed old_server ++ seq (attempts old_server) 2).
Proof.
  apply (destruction_leaves_only_leases always_ok cs0 2 old_server
           (fresh_world cs0 2 old_server) half_returned
           [EvAcquire 7; EvAcquire 8; EvDrop 4 0]
           [Acquired 4; Acquired 5; Returned 4] old_server_wf);
    vm_compute; reflexivity.
Defined.

Lemma leased_handle_is_exclusive_witness :
  use_count one_leased !! 1 = None
  /\ use_count busy_world !! 1 = Some 1
  /\ (1 ∉ pool (self busy_world))
  /\ 1 ∈ seq (attempts server0) 2.
Proof.
  apply (leased_handle_is_exclusive always_ok cs0 2 server0 two_idle one_leased
           busy_world [EvAcquire 7] [Acquired 0] (EvAcquire 8) 1);
    vm_compute; reflexivity.
Defined.

Lemma running_pool_never_throws_witness :
  stop (self busy_world) = false
  /\ Forall (fun o => (forall x, o <> Threw x) /\ o <> Undefined) busy_outcomes.
Proof.
  apply (running_pool_never_throws always_ok cs0 2 server0 two_idle busy_world
           busy_events busy_outcomes); vm_compute; reflexivity.
Defined.

Lemma no_lost_wakeup_witness :
  NoDup (connectionAvailable (self crowded_world) ++ notified crowded_world)
  /\ (connectionAvailable (self crowded_world) <> [] ->
      length (pool (self crowded_world)) <= length (notified crowded_world)).
Proof.
  apply (no_lost_wakeup always_ok cs0 2 server0 two_idle crowded_world
           crowded_events
           [Acquired 0; Acquired 1; Blocked; Blocked; Returned 0]);
    vm_compute; reflexivity.
Defined.

Lemma returned_handle_reaches_a_waiter_witness :
  exists t w1 w2,
    t ∈ connectionAvailable (self starved_world)
    /\ step starved_world (EvDrop 0 3) = Some (w1, Returned 0)
    /\ notified w1 = notified starved_world ++ [t]
    /\ step w1 (EvResume t) = Some (w2, Acquired 0)
    /\ pool (self w2) = []
    /\ use_count w2 !! 0 = Some 1.
Proof.
  apply (returned_handle_reaches_a_waiter starved_world 0 3);
    [reflexivity|reflexivity|discriminate|vm_compute; reflexivity].
Defined.

Lemma notified_waiter_can_lose_the_race_witness :
  exists t w1 w2 w3,
    t ∈ connectionAvailable (self starved_world)
    /\ step starved_world (EvDrop 0 3) = Some (w1, Returned 0)
    /\ step w1 (EvAcquire 6) = Some (w2, Acquired 0)
    /\ step w2 (EvResume t) = Some (w3, Blocked)
    /\ t ∈ connectionAvailable (self w3)
    /\ pool (self w3) = [].
Proof.
  apply (notified_waiter_can_lose_the_race starved_world 0 3 6);
    [reflexivity|reflexivity|discriminate|vm_compute; reflexivity
    |vm_compute; reflexivity].
Defined.

Lemma acquire_release_round_trip_witness :
  exists w1 w2,
    acquire 7 two_idle = (w1, Acquired 0)
    /\ shared_ptr_drop 0 0 w1 = Some (w2, Returned 0)
    /\ pool (self w2) = [1] ++ [0]
    /\ use_count w2 = use_count two_idle
    /\ db w2 = db two_idle
    /\ stop (self w2) = false
    /\ poolSize (self w2) = poolSize (self two_idle).
Proof.
  apply (acquire_release_round_trip 7 two_idle 0 [1] 0);
    [reflexivity|reflexivity|vm_compute; reflexivity].
Defined.

Lemma spurious_wakeup_changes_nothing_witness :
  exists w1 w2,
    step starved_world (EvSpurious 5) = Some (w1, Done)
    /\ step w1 (EvResume 5) = Some (w2, Blocked)
    /\ pool (self w2) = []
    /\ use_count w2 = use_count starved_world
    /\ db w2 = db starved_world
    /\ notified w2 = notified starved_world
    /\ connectionAvailable (self w2) ≡ₚ connectionAvailable (self starved_world).
Proof.
  apply (spurious_wakeup_changes_nothing starved_world 5);
    [reflexivity|reflexivity| |].
  - right. left.
  - simpl. repeat constructor; intros Hin;
      repeat (apply elem_of_cons in Hin as [Hin|Hin]; [lia|]);
      by apply elem_of_nil in Hin.
Defined.

Example simple_sample_run :
  simpleConnectionSample always_ok queries_ok old_server
  = (mkServer 14 [1; 3] [0; 2; 5; 6; 7; 8; 9; 10; 11; 12; 13; 4], Returns)
  /\ simpleConnectionSample seventh_refused queries_ok old_server
     = (mkServer 7 [1; 3] [0; 2; 4; 5], Throws (pool_failure broken_connection))
  /\ simpleConnectionSample always_ok (fun _ => false) old_server
     = (mkServer 14 [1; 3] [0; 2; 5; 6; 7; 8; 9; 10; 11; 12; 13; 4],
        Throws query_failure).
Proof. repeat split; vm_compute; reflexivity. Qed.

Lemma simpleConnectionSample_closes_what_it_opens_witness :
  live (simpleConnectionSample seventh_refused queries_ok old_server).1
  = live old_server
  /\ (simpleConnectionSample seventh_refused queries_ok old_server).2 <> Hangs
  /\ attempts old_server
     <= attempts (simpleConnectionSample seventh_refused queries_ok old_server).1
     <= attempts old_server + 10
  /\ ((forall i, i < 10 ->
         seventh_refused sample_connectionString (attempts old_server + i) = true) ->
      simpleConnectionSample seventh_refused queries_ok old_server
      = (mkServer (attempts old_server + 10) (live old_server)
           (closed old_server ++ seq (S (attempts old_server)) 9
              ++ [attempts old_server]),
         if queries_ok (attempts old_server) then Returns
         else Throws query_failure)).
Proof.
  apply (simpleConnectionSample_closes_what_it_opens seventh_refused queries_ok
           old_server old_server_wf).
Defined.

Lemma sharedConnectionSample_keeps_the_lease_open_witness :
  (sharedConnectionSample always_ok queries_ok old_server).1.2 = Returns
  /\ (sharedConnectionSample always_ok queries_ok old_server).2 = [Some true]
  /\ live (sharedConnectionSample always_ok queries_ok old_server).1.1
     = live old_server.
Proof.
  destruct (sharedConnectionSample_keeps_the_lease_open always_ok queries_ok
              old_server old_server_wf) as (Hlive & _ & Hret & _ & _).
  assert (Hend : (sharedConnectionSample always_ok queries_ok old_server).1.2
                 = Returns) by (vm_compute; reflexivity).
  split; [exact Hend|]. split; [exact (Hret Hend)|exact Hlive].
Defined.

Lemma main_returns_with_everything_closed_witness :
  (main always_ok queries_ok old_server).1.2 = Returns
  /\ main always_ok queries_ok old_server
     = (mkServer (attempts old_server + 110) (live old_server)
          (closed old_server
             ++ (seq (S (attempts old_server)) 9 ++ [attempts old_server])
             ++ seq (S (attempts old_server + 10)) 99
             ++ [attempts old_server + 10]),
        Returns, [Some true]).
Proof.
  destruct (main_returns_with_everything_closed always_ok queries_ok old_server
              old_server_wf) as (_ & [_ Hret] & Hexact).
  assert (Hend : (main always_ok queries_ok old_server).1.2 = Returns)
    by (apply Hret; repeat split; reflexivity).
  split; [exact Hend|exact (Hexact Hend)].
Defined.

Lemma test_expectations_hold_witness :
  (test_SimpleConnection always_ok queries_ok old_server).1.2 = Returns
  /\ (test_SimpleConnection always_ok queries_ok old_server).2 = [true]
  /\ (test_SharedConnection always_ok queries_ok old_server).1.2 = Returns
  /\ (test_SharedConnection always_ok queries_ok old_server).2 = [true; true].
Proof.
  destruct (test_expectations_hold always_ok queries_ok old_server
              old_server_wf) as (_ & _ & _ & _ & _ & _ & Hexact).
  apply Hexact; reflexivity.
Defined.

Lemma setDbConnection_replaces_the_lease_witness :
  exists consumer' w',
    setDbConnection 0 0 (mkSampleConsumer (Some 1)) busy_world
    = Some (consumer', w')
    /\ dbConnection consumer' = Some 0
    /\ use_count w' !! 0 = Some 2
    /\ use_count w' !! 1 = None
    /\ pool (self w') = pool (self busy_world) ++ [1]
    /\ isConnectionOpen consumer' w' = Some (is_open 0 busy_world).
Proof.
  apply (setDbConnection_replaces_the_lease busy_world 0 1 0 0
           (mkSampleConsumer (Some 1)));
    [reflexivity|lia|vm_compute; reflexivity|vm_compute; reflexivity].
Defined.
